(** * Alloy: relabel data path, regex log stage, component introspection

    A shallow embedding of three pieces of the agent:

    - [Relabel]: the [prometheus.relabel] component
      (internal/component/prometheus/relabel/relabel.go): its arguments,
      its LRU-cached [relabel] function and the four receiver hooks;
    - [Stages]: the regex stage of the log pipeline
      (internal/component/loki/process/stages), of which only the tests
      are at hand;
    - [Runtime]: [GetComponent], [ListComponents] and
      [getComponentDetail] of the runtime controller.

    Go values are embedded as follows.  [int], [int64] and [uint64] are
    [Z]; a [float64] is its IEEE-754 bit pattern (a [Z]), the only float
    operation of the code being the comparison of that pattern with the
    stale marker; a [labels.Labels] slice is an address into a store of
    label lists, so that copying and in-place writes can be told apart;
    Go maps are [gmap]s; a pointer that may be nil is an [option].  The
    component's cache pointer itself is never nil ([lru.New] always
    returns a cache, also beside an error); what may be nil is the list
    inside that cache, and the [option] of the [cache] field is that
    list. *)

From Stdlib Require Import ZArith String List Bool Lia.
From stdpp Require Import base option list gmap strings fin_maps pretty.

Local Open Scope string_scope.
Local Open Scope Z_scope.

(** ** A state monad with panics

    [M S A] is a computation over a state [S] that either returns a value
    and a new state, or panics ([None]): a nil-pointer dereference.  A
    panic ends the run of the model: no state is given after it, and
    nothing is said of calls made after a panic (in the program a panic
    inside the cache leaves the lock of that cache held, and a later call
    on the same cache blocks). *)

Definition M (S A : Type) : Type := S -> option (A * S).

Definition retM {S A} (a : A) : M S A := fun s => Some (a, s).

Definition bindM {S A B} (m : M S A) (k : A -> M S B) : M S B :=
  fun s => match m s with
           | Some (a, s') => k a s'
           | None => None
           end.

Definition panic {S A} : M S A := fun _ => None.

Definition gets {S A} (f : S -> A) : M S A := fun s => Some (f s, s).

Definition modify {S} (f : S -> S) : M S unit := fun s => Some (tt, f s).

Notation "'let*' x := m 'in' k" := (bindM m (fun x => k))
  (at level 10, x pattern, m at level 100, k at level 200).
Notation "'run' m 'in' k" := (bindM m (fun _ => k))
  (at level 10, m at level 100, k at level 200).

(** ** hashicorp/golang-lru: a fixed-capacity cache

    The entries are kept most recently used first.  [Add] and [Get] move
    the entry they touch to the front; [Add] of a new key evicts the
    entry at the back once the length exceeds the capacity.

    A [*lru.Cache] of the library is a lock and a pointer [c.lru] to the
    list of entries.  [Cache] below is that list with its capacity; a
    cache as a caller holds it is an [option Cache], [None] being a cache
    whose [c.lru] is nil.  The methods used here ([Get], [Add], [Remove]
    and [Len]) take the lock and then dereference [c.lru]: on such a
    cache they panic. *)

Module lru.

Section Cache.
Context {V : Type}.

Record Cache : Type := mkCache {
  size : Z;                      (* capacity *)
  items : list (Z * V)           (* front = most recently used *)
}.

(** [lru.New(size)] returns a cache in both cases, never a nil pointer:
    for a positive [size] a cache with an empty list of that capacity and
    no error; otherwise the error of the list constructor and, beside it,
    a cache whose list [c.lru] is nil ([None]). *)
Definition New (sz : Z) : option Cache * option string :=
  if sz <=? 0 then (None, Some "must provide a positive size")
  else (Some (mkCache sz []), None).

Fixpoint find (k : Z) (l : list (Z * V)) : option V :=
  match l with
  | [] => None
  | (k', v) :: l' => if k' =? k then Some v else find k l'
  end.

Fixpoint remove (k : Z) (l : list (Z * V)) : list (Z * V) :=
  match l with
  | [] => []
  | (k', v) :: l' => if k' =? k then remove k l' else (k', v) :: remove k l'
  end.

(** Look a key up without touching the recency order. *)
Definition Peek (k : Z) (c : Cache) : option V := find k (items c).

Definition Len (c : Cache) : Z := Z.of_nat (length (items c)).

Definition Get (k : Z) (c : Cache) : option V * Cache :=
  match find k (items c) with
  | Some v => (Some v, mkCache (size c) ((k, v) :: remove k (items c)))
  | None => (None, c)
  end.

Definition Add (k : Z) (v : V) (c : Cache) : Cache :=
  match find k (items c) with
  | Some _ => mkCache (size c) ((k, v) :: remove k (items c))
  | None =>
      let l := (k, v) :: items c in
      if Z.of_nat (length l) >? size c
      then mkCache (size c) (removelast l)
      else mkCache (size c) l
  end.

Definition Remove (k : Z) (c : Cache) : Cache :=
  mkCache (size c) (remove k (items c)).

Lemma find_remove_eq k l : find k (remove k l) = None.
Proof.
  induction l as [|[k' v] l IH]; simpl; [done|].
  destruct (k' =? k) eqn:E; simpl; [done|]. by rewrite E.
Qed.

Lemma find_remove_ne k k' l : k ≠ k' -> find k' (remove k l) = find k' l.
Proof.
  intros Hne. induction l as [|[k0 v] l IH]; simpl; [done|].
  destruct (k0 =? k) eqn:E; simpl.
  - apply Z.eqb_eq in E. subst k0.
    destruct (k =? k') eqn:E'; [apply Z.eqb_eq in E'; done | done].
  - by rewrite IH.
Qed.

Lemma find_removelast k v l :
  find k (removelast l) = Some v -> find k l = Some v.
Proof.
  induction l as [|[k0 v0] l IH]; [done|].
  destruct l as [|p l']; [done|].
  change (removelast ((k0, v0) :: p :: l'))
    with ((k0, v0) :: removelast (p :: l')).
  cbn [find]. destruct (k0 =? k); [done | apply IH].
Qed.

Lemma find_removelast_head k v p l :
  find k (removelast ((k, v) :: p :: l)) = Some v.
Proof.
  change (removelast ((k, v) :: p :: l)) with ((k, v) :: removelast (p :: l)).
  cbn [find]. by rewrite Z.eqb_refl.
Qed.

(** What [Peek] sees after each operation. *)

Lemma Peek_New sz c k : New sz = (Some c, None) -> Peek k c = None.
Proof. unfold New. destruct (sz <=? 0); intros [= <-]; done. Qed.

Lemma Get_fst k c : (Get k c).1 = Peek k c.
Proof. unfold Get, Peek. by destruct (find k (items c)). Qed.

Lemma Peek_Get k k' c : Peek k' (Get k c).2 = Peek k' c.
Proof.
  unfold Get, Peek. destruct (find k (items c)) as [v|] eqn:E; simpl; [|done].
  destruct (k =? k') eqn:E'.
  - apply Z.eqb_eq in E'. by subst k'.
  - apply Z.eqb_neq in E'. by apply find_remove_ne.
Qed.

Lemma size_Get k c : size (Get k c).2 = size c.
Proof. unfold Get. by destruct (find k (items c)). Qed.

Lemma size_Add k v c : size (Add k v c) = size c.
Proof.
  unfold Add. destruct (find k (items c)); [done|].
  by destruct (_ >? _).
Qed.

Lemma Peek_Add_eq k v c : 0 < size c -> Peek k (Add k v c) = Some v.
Proof.
  intros Hsz. unfold Add, Peek.
  destruct (find k (items c)) eqn:E; simpl; [by rewrite Z.eqb_refl|].
  destruct (_ >? _) eqn:Hlen; simpl; [|by rewrite Z.eqb_refl].
  destruct (items c) as [|p l].
  - apply Z.gtb_lt in Hlen. simpl in Hlen. lia.
  - apply find_removelast_head.
Qed.

Lemma Peek_Add_ne k k' v v' c :
  k ≠ k' -> Peek k' (Add k v c) = Some v' -> Peek k' c = Some v'.
Proof.
  intros Hne. unfold Add, Peek.
  destruct (find k (items c)) eqn:E.
  - simpl. destruct (k =? k') eqn:E'; [apply Z.eqb_eq in E'; done|].
    by rewrite find_remove_ne.
  - destruct (_ >? _); cbn [items].
    + intros H. apply find_removelast in H. simpl in H.
      destruct (k =? k') eqn:E'; [apply Z.eqb_eq in E'; done | done].
    + simpl. destruct (k =? k') eqn:E'; [apply Z.eqb_eq in E'; done | done].
Qed.

Lemma Peek_Remove_eq k c : Peek k (Remove k c) = None.
Proof. apply find_remove_eq. Qed.

Lemma Peek_Remove_ne k k' c : k ≠ k' -> Peek k' (Remove k c) = Peek k' c.
Proof. apply find_remove_ne. Qed.

(** The length never passes the capacity, and the entry touched last is
    at the front. *)

Lemma length_remove_le k l : (length (remove k l) <= length l)%nat.
Proof.
  induction l as [|[k' v] l IH]; simpl; [done|].
  destruct (k' =? k); simpl; lia.
Qed.

Lemma length_remove_lt k l v :
  find k l = Some v -> (length (remove k l) < length l)%nat.
Proof.
  induction l as [|[k' v'] l IH]; simpl; [done|].
  destruct (k' =? k); simpl.
  - intros _. pose proof (length_remove_le k l). lia.
  - intros H. apply IH in H. lia.
Qed.

Lemma length_removelast_cons (p : Z * V) l :
  length (removelast (p :: l)) = length l.
Proof.
  revert p. induction l as [|q l IH]; intros p; [done|].
  change (removelast (p :: q :: l)) with (p :: removelast (q :: l)).
  cbn [length]. f_equal. apply IH.
Qed.

Lemma Len_nonneg c : 0 <= Len c.
Proof. unfold Len. lia. Qed.

Lemma Len_New sz c : New sz = (Some c, None) -> Len c = 0 /\ size c = sz.
Proof. unfold New. destruct (sz <=? 0); intros [= <-]; done. Qed.

Lemma Len_Get_le k c : Len (Get k c).2 <= Len c.
Proof.
  unfold Get, Len. destruct (find k (items c)) as [v|] eqn:E; simpl; [|lia].
  apply length_remove_lt in E. lia.
Qed.

Lemma Len_Remove_le k c : Len (Remove k c) <= Len c.
Proof. unfold Remove, Len. simpl. pose proof (length_remove_le k (items c)). lia. Qed.

Lemma Len_Add_le k v c : Len c <= size c -> Len (Add k v c) <= size c.
Proof.
  unfold Add, Len. intros Hb.
  destruct (find k (items c)) as [v0|] eqn:E.
  - simpl. apply length_remove_lt in E. lia.
  - destruct (_ >? _) eqn:Hlen; cbn [items size].
    + rewrite length_removelast_cons. lia.
    + rewrite Z.gtb_ltb in Hlen. apply Z.ltb_ge in Hlen. lia.
Qed.

Lemma Len_Add_pos k v c : 0 < size c -> 1 <= Len (Add k v c).
Proof.
  unfold Add, Len. intros Hsz.
  destruct (find k (items c)) as [v0|] eqn:E; [simpl; lia|].
  destruct (_ >? _) eqn:Hlen; cbn [items size]; [|simpl; lia].
  rewrite length_removelast_cons. apply Z.gtb_lt in Hlen. simpl in Hlen. lia.
Qed.

Lemma Len_Get_pos k c v : Peek k c = Some v -> 1 <= Len (Get k c).2.
Proof. unfold Peek, Get, Len. intros ->. simpl. lia. Qed.

Lemma Peek_head r e rest c : items c = (r, e) :: rest -> Peek r c = Some e.
Proof. unfold Peek. intros ->. simpl. by rewrite Z.eqb_refl. Qed.

Lemma items_Get_hit k c v :
  Peek k c = Some v -> items (Get k c).2 = (k, v) :: remove k (items c).
Proof. unfold Peek, Get. by intros ->. Qed.

Lemma items_Add_head k v c :
  0 < size c -> exists rest, items (Add k v c) = (k, v) :: rest.
Proof.
  intros Hsz. unfold Add. destruct (find k (items c)); [by eexists|].
  destruct (_ >? _) eqn:Hlen; cbn [items]; [|by eexists].
  destruct (items c) as [|p l].
  - apply Z.gtb_lt in Hlen. simpl in Hlen. lia.
  - change (removelast ((k, v) :: p :: l))
      with ((k, v) :: removelast (p :: l)). by eexists.
Qed.

(** With room for two, adding another key does not evict the entry at
    the front. *)
Lemma Peek_head_Add r e rest k v c :
  items c = (r, e) :: rest -> 2 <= size c -> r <> k ->
  Peek r (Add k v c) = Some e.
Proof.
  intros Hitems Hsz Hne. unfold Add, Peek. rewrite Hitems.
  assert (Hrk : (r =? k) = false) by by apply Z.eqb_neq.
  assert (Hkr : (k =? r) = false) by (apply Z.eqb_neq; congruence).
  destruct (find k ((r, e) :: rest)) as [v0|] eqn:E; cbn [items].
  - simpl. rewrite Hkr, Hrk. simpl. by rewrite Z.eqb_refl.
  - destruct (_ >? _) eqn:Hlen; cbn [items size].
    + destruct rest as [|q rest'].
      * apply Z.gtb_lt in Hlen. simpl in Hlen. lia.
      * change (removelast ((k, v) :: (r, e) :: q :: rest'))
          with ((k, v) :: (r, e) :: removelast (q :: rest')).
        simpl. rewrite Hkr. by rewrite Z.eqb_refl.
    + simpl. rewrite Hkr. by rewrite Z.eqb_refl.
Qed.

End Cache.

Arguments Cache : clear implicits.

(** Capacity 2: the entry touched longest ago is the one evicted. *)
Example evicts_least_recently_used :
  let c0 := mkCache 2 [] in
  let c1 := Add 2 "b" (Add 1 "a" c0) in
  let c2 := Add 3 "c" (Get 1 c1).2 in
  items c1 = [(2, "b"); (1, "a")] /\
  items c2 = [(3, "c"); (1, "a")] /\
  Peek 2 c2 = None.
Proof. done. Qed.

End lru.


(** ** prometheus.relabel

    The component of relabel.go.  Its two locks are not modelled: a call
    of [relabel], [Update] or a hook runs to its end before the next one
    starts.  The Prometheus counters and the gauge are integers. *)

Module Relabel.

(** A [uint64], an [int64] and an [int] are integers; a [float64] is the
    integer of its bit pattern, [math.Float64bits]. *)
Abbreviation uint64 := Z (only parsing).
Abbreviation int64 := Z (only parsing).
Abbreviation float64 := Z (only parsing).
Abbreviation SeriesRef := Z (only parsing).

(** [labels.Labels] holds (name, value) pairs; [loc] is the address of
    the backing array of such a slice. *)
Abbreviation Labels := (list (string * string)) (only parsing).
Abbreviation loc := positive (only parsing).

Definition EmptyLabels : Labels := [].

Definition IsEmpty (l : Labels) : bool :=
  match l with [] => true | _ => false end.

(** [value.StaleNaN] and [value.IsStaleNaN] of prometheus/model/value:
    the stale marker is one fixed NaN bit pattern. *)
Definition StaleNaN : uint64 := 0x7ff0000000000002.

Definition IsStaleNaN (v : float64) : bool := v =? StaleNaN.

(** [labelAndID] stores the labels with their global ref id. *)
Record labelAndID : Type := mklabelAndID {
  labels : Labels;
  id : uint64
}.

(** *** The label store *)

(** Modelled from the spec: the label store service
    (internal/service/labelstore), of which the component only uses
    [GetOrAddGlobalRefID].  The store hands out one 64-bit id per label
    set, counting upwards, and an id is never used twice. *)
Record LabelStore : Type := mkLabelStore {
  ids : gmap (list (string * string)) Z;
  globalRefID : uint64                    (* the id handed out last *)
}.

Definition GetOrAddGlobalRefID (l : Labels) : M LabelStore uint64 :=
  fun s =>
    match ids s !! l with
    | Some r => Some (r, s)
    | None =>
        let r := globalRefID s + 1 in
        Some (r, mkLabelStore (<[l := r]> (ids s)) r)
    end.

(** The id [GetOrAddGlobalRefID] answers with, and the store it leaves. *)
Definition refOf (l : Labels) (s : LabelStore) : uint64 :=
  match ids s !! l with
  | Some r => r
  | None => globalRefID s + 1
  end.

Definition storeWith (l : Labels) (s : LabelStore) : LabelStore :=
  match ids s !! l with
  | Some _ => s
  | None => mkLabelStore (<[l := globalRefID s + 1]> (ids s)) (globalRefID s + 1)
  end.

(** A store is well formed when no id is ahead of the counter and no id
    names two label sets. *)
Definition ls_wf (s : LabelStore) : Prop :=
  (forall l r, ids s !! l = Some r -> r <= globalRefID s) /\
  (forall l1 l2 r, ids s !! l1 = Some r -> ids s !! l2 = Some r -> l1 = l2).

Definition NewLabelStore : LabelStore := mkLabelStore ∅ 0.

(** *** Live debugging *)

(** [livedebugging.Data] as published by [relabel]: the count and the two
    label sets that the lazily built text "in => out" is printed from. *)
Record Data : Type := mkData {
  ComponentID : string;
  Count : uint64;
  DataIn : Labels;
  DataOut : Labels
}.

Record DebugDataPublisher : Type := mkPublisher {
  active : bool;
  published : list Data                   (* newest first *)
}.

Definition PublishIfActive (d : Data) (p : DebugDataPublisher)
  : DebugDataPublisher :=
  if active p then mkPublisher (active p) (d :: published p) else p.

Section Component.

(** The rules of prometheus/model/relabel, the rule blocks of the
    configuration, their conversion, and the downstream appendables are
    parameters. *)
Variable Config : Type.
Variable AlloyConfig : Type.
Variable ComponentToPromRelabelConfigs : list AlloyConfig -> list Config.
Variable Appendable : Type.

(** What the rule engine ([relabel.ProcessBuilder] of Prometheus, run on
    a builder over the slice) does with the slice it is handed: [kept] is
    the relabelled set, or [None] when a rule drops the series; [scratch]
    is what the slice itself holds afterwards, the engine being free to
    work in place. *)
Record Outcome : Type := mkOutcome {
  scratch : Labels;
  kept : option (list (string * string))
}.

Variable ProcessBuilder : Labels -> list Config -> Outcome.

(** [relabel.Process] on label contents: the empty set and [false] on a
    drop, the relabelled set and [true] otherwise. *)
Definition ProcessLabels (l : Labels) (cfgs : list Config) : Labels * bool :=
  match kept (ProcessBuilder l cfgs) with
  | Some l' => (l', true)
  | None => (EmptyLabels, false)
  end.

(** *** Arguments *)

Record Arguments : Type := mkArguments {
  ForwardTo : list Appendable;
  MetricRelabelConfigs : list AlloyConfig;
  CacheSize : Z
}.

Definition SetToDefault (arg : Arguments) : Arguments :=
  mkArguments [] [] 100000.

Inductive error : Type :=
  | ErrMaxCacheSize (n : Z)   (* max_cache_size must be greater than 0 and is n *)
  | ErrExited (id : string)   (* <id> has exited *)
  | ErrOther (msg : string).

Definition Validate (arg : Arguments) : option error :=
  if CacheSize arg <=? 0 then Some (ErrMaxCacheSize (CacheSize arg))
  else None.

Record Exports : Type := mkExports {
  Rules : list AlloyConfig
}.

(** *** The component *)

Record Component : Type := mkComponent {
  opts_ID : string;
  mrc : list Config;
  metricsProcessed : Z;
  metricsOutgoing : Z;
  cacheHits : Z;
  cacheMisses : Z;
  cacheSize : Z;
  cacheDeletes : Z;
  fanout : list Appendable;
  exited : bool;
  ls : LabelStore;
  debugDataPublisher : DebugDataPublisher;
  cache : option (lru.Cache (option labelAndID));   (* the list of c.cache *)
  onStateChange : list Exports            (* exports published, newest first *)
}.

(** Assignments to the fields of the component. *)
Definition set_mrc x c :=
  let '(mkComponent a _ d e f g h i j k l m n o) := c in
  mkComponent a x d e f g h i j k l m n o.
Definition set_metricsProcessed x c :=
  let '(mkComponent a b _ e f g h i j k l m n o) := c in
  mkComponent a b x e f g h i j k l m n o.
Definition set_metricsOutgoing x c :=
  let '(mkComponent a b d _ f g h i j k l m n o) := c in
  mkComponent a b d x f g h i j k l m n o.
Definition set_cacheHits x c :=
  let '(mkComponent a b d e _ g h i j k l m n o) := c in
  mkComponent a b d e x g h i j k l m n o.
Definition set_cacheMisses x c :=
  let '(mkComponent a b d e f _ h i j k l m n o) := c in
  mkComponent a b d e f x h i j k l m n o.
Definition set_cacheSize x c :=
  let '(mkComponent a b d e f g _ i j k l m n o) := c in
  mkComponent a b d e f g x i j k l m n o.
Definition set_cacheDeletes x c :=
  let '(mkComponent a b d e f g h _ j k l m n o) := c in
  mkComponent a b d e f g h x j k l m n o.
Definition set_fanout x c :=
  let '(mkComponent a b d e f g h i _ k l m n o) := c in
  mkComponent a b d e f g h i x k l m n o.
Definition set_exited x c :=
  let '(mkComponent a b d e f g h i j _ l m n o) := c in
  mkComponent a b d e f g h i j x l m n o.
Definition set_ls x c :=
  let '(mkComponent a b d e f g h i j k _ m n o) := c in
  mkComponent a b d e f g h i j k x m n o.
Definition set_debugDataPublisher x c :=
  let '(mkComponent a b d e f g h i j k l _ n o) := c in
  mkComponent a b d e f g h i j k l x n o.
Definition set_cache x c :=
  let '(mkComponent a b d e f g h i j k l m _ o) := c in
  mkComponent a b d e f g h i j k l m x o.
Definition set_onStateChange x c :=
  let '(mkComponent a b d e f g h i j k l m n _) := c in
  mkComponent a b d e f g h i j k l m n x.

(** The world a call runs in: the component and the store of label
    slices. *)
Record World : Type := mkWorld {
  comp : Component;
  mem : gmap positive (list (string * string))
}.

(** Run a computation on the component inside the world. *)
Definition onComp {A} (m : M Component A) : M World A :=
  fun w => match m (comp w) with
           | Some (a, c') => Some (a, mkWorld c' (mem w))
           | None => None
           end.

(** The content of a slice; a slice with no array is empty. *)
Definition deref (m : gmap positive (list (string * string))) (l : loc)
  : Labels := default [] (m !! l).

(** [lbls.Copy()]: a new array with the same content. *)
Definition Copy (lbls : loc) : M World loc :=
  fun w =>
    let l' := fresh (dom (mem w)) in
    Some (l', mkWorld (comp w) (<[l' := deref (mem w) lbls]> (mem w))).

(** [relabel.Process(lbls, cfgs...)] on a slice. *)
Definition Process (lbls : loc) (cfgs : list Config) : M World (Labels * bool) :=
  fun w =>
    let l := deref (mem w) lbls in
    Some (ProcessLabels l cfgs,
          mkWorld (comp w) (<[lbls := scratch (ProcessBuilder l cfgs)]> (mem w))).

(** A call on a cache whose list is nil panics inside the library.
    [lru.Get] answers with the entry, itself a pointer that may be nil,
    and whether the key was found. *)
Definition getFromCache (id : uint64) : M Component (option labelAndID * bool) :=
  let* oc := gets cache in
  match oc with
  | None => panic
  | Some lc =>
      let '(fm, lc') := lru.Get id lc in
      run modify (set_cache (Some lc')) in
      retM (match fm with
            | Some e => (e, true)
            | None => (None, false)
            end)
  end.

Definition deleteFromCache (id : uint64) : M Component unit :=
  run modify (fun c => set_cacheDeletes (cacheDeletes c + 1) c) in
  let* oc := gets cache in
  match oc with
  | None => panic
  | Some lc => modify (set_cache (Some (lru.Remove id lc)))
  end.

(** The error of [lru.New] is dropped: the cache is what it returns with
    it, for a size that is not positive a cache whose list is nil. *)
Definition clearCache (cacheSize : Z) : M Component unit :=
  let '(cache, _) := lru.New cacheSize in
  modify (set_cache cache).

Definition addToCache (originalID : uint64) (lbls : Labels) (keep : bool)
  : M Component unit :=
  let* oc := gets cache in
  if negb keep then
    match oc with
    | None => panic
    | Some lc => modify (set_cache (Some (lru.Add originalID None lc)))
    end
  else
    let* newGlobal :=
      (fun c => match GetOrAddGlobalRefID lbls (ls c) with
                | Some (r, s) => Some (r, set_ls s c)
                | None => None
                end) in
    match oc with
    | None => panic
    | Some lc =>
        modify (set_cache
                  (Some (lru.Add originalID
                           (Some (mklabelAndID lbls newGlobal)) lc)))
    end.

(** [c.cache.Len()]. *)
Definition cacheLen : M Component Z :=
  let* oc := gets cache in
  match oc with
  | None => panic
  | Some lc => retM (lru.Len lc)
  end.

(** [relabel]: the labels it returns are those of the cache entry on a
    hit, none for a nil entry, and those [Process] makes of a copy of
    [lbls] on a miss; a stale marker then removes the entry. *)
Definition relabel (val : float64) (lbls : loc) : M World Labels :=
  run onComp (modify (fun c => set_metricsProcessed (metricsProcessed c + 1) c)) in
  let* content := gets (fun w => deref (mem w) lbls) in
  let* globalRef :=
    onComp (fun c => match GetOrAddGlobalRefID content (ls c) with
                     | Some (r, s) => Some (r, set_ls s c)
                     | None => None
                     end) in
  let* (newLbls, found) := onComp (getFromCache globalRef) in
  let* relabelled :=
    (if found : bool then
       run onComp (modify (fun c => set_cacheHits (cacheHits c + 1) c)) in
       retM (match newLbls with
             | Some e => labels e
             | None => EmptyLabels
             end)
     else
       let* cp := Copy lbls in
       let* rules := gets (fun w => mrc (comp w)) in
       let* (relabelled, keep) := Process cp rules in
       run onComp (modify (fun c => set_cacheMisses (cacheMisses c + 1) c)) in
       run onComp (addToCache globalRef relabelled keep) in
       retM relabelled) in
  run (if IsStaleNaN val then onComp (deleteFromCache globalRef) else retM tt) in
  let* n := onComp cacheLen in
  run onComp (modify (set_cacheSize n)) in
  let count := if Z.of_nat (length relabelled) =? 0 then 0 else 1 in
  let* content' := gets (fun w => deref (mem w) lbls) in
  run onComp (modify (fun c =>
        set_debugDataPublisher
          (PublishIfActive (mkData (opts_ID c) count content' relabelled)
             (debugDataPublisher c)) c)) in
  retM relabelled.

(** [Update]: always returns a nil error. *)
Definition Update (args : Arguments) : M Component (option error) :=
  run clearCache (CacheSize args) in
  run modify (set_mrc (ComponentToPromRelabelConfigs (MetricRelabelConfigs args))) in
  run modify (set_fanout (ForwardTo args)) in
  run modify (fun c =>
        set_onStateChange
          (mkExports (MetricRelabelConfigs args) :: onStateChange c) c) in
  retM None.

(** [Run] blocks until its context is done; when it returns, the deferred
    store has set [exited]. *)
Definition Run : M Component (option error) :=
  run modify (set_exited true) in
  retM None.

(** [component.Options] as far as [New] uses it: the component id, the
    two services, and the registerer. *)
Record Options : Type := mkOptions {
  ID : string;
  GetServiceData_livedebugging : DebugDataPublisher + error;
  GetServiceData_labelstore : LabelStore + error;
  Register : string -> option error
}.

Definition metricNames : list string :=
  [ "alloy_prometheus_relabel_metrics_processed";
    "alloy_prometheus_relabel_metrics_written";
    "alloy_prometheus_relabel_cache_misses";
    "alloy_prometheus_relabel_cache_hits";
    "alloy_prometheus_relabel_cache_size";
    "alloy_prometheus_relabel_cache_deletes" ].

(** The loop over the collectors: the first error ends it. *)
Fixpoint registerAll (reg : string -> option error) (names : list string)
  : option error :=
  match names with
  | [] => None
  | n :: names' =>
      match reg n with
      | Some err => Some err
      | None => registerAll reg names'
      end
  end.

(** [New]: the component, or the first error met. *)
Definition New (o : Options) (args : Arguments) : Component + error :=
  match lru.New (V := option labelAndID) (CacheSize args) with
  | (_, Some err) => inr (ErrOther err)
  | (cache, None) =>
      match GetServiceData_livedebugging o with
      | inr err => inr err
      | inl debugDataPublisher =>
          match GetServiceData_labelstore o with
          | inr err => inr err
          | inl data =>
              let c := mkComponent (ID o) [] 0 0 0 0 0 0 [] false data
                         debugDataPublisher cache [] in
              match registerAll (Register o) metricNames with
              | Some err => inr err
              | None =>
                  let c := set_fanout (ForwardTo args) c in
                  let c := set_onStateChange
                             [mkExports (MetricRelabelConfigs args)] c in
                  match Update args c with
                  | Some (None, c') => inl c'
                  | Some (Some err, _) => inr err
                  | None => inr (ErrOther "panic")
                  end
              end
          end
      end
  end.

(** *** The receiver hooks *)

Section Hooks.

Variables Exemplar Metadata Histogram FloatHistogram : Type.

(** The next [storage.Appender] of the chain, over a state [D] of its
    own. *)
Record Appender (D : Type) : Type := mkAppender {
  Append : SeriesRef -> Labels -> int64 -> float64 ->
           D -> (SeriesRef * option error) * D;
  AppendExemplar : SeriesRef -> Labels -> Exemplar ->
           D -> (SeriesRef * option error) * D;
  UpdateMetadata : SeriesRef -> Labels -> Metadata ->
           D -> (SeriesRef * option error) * D;
  AppendHistogram : SeriesRef -> Labels -> int64 ->
           option Histogram -> option FloatHistogram ->
           D -> (SeriesRef * option error) * D
}.
Arguments Append {D}.
Arguments AppendExemplar {D}.
Arguments UpdateMetadata {D}.
Arguments AppendHistogram {D}.

(** An appender that records what it is sent, newest first, and answers
    as [reply] says. *)
Inductive Sent : Type :=
  | SentAppend (ref : SeriesRef) (l : Labels) (t : int64) (v : float64)
  | SentExemplar (ref : SeriesRef) (l : Labels) (e : Exemplar)
  | SentMetadata (ref : SeriesRef) (l : Labels) (m : Metadata)
  | SentHistogram (ref : SeriesRef) (l : Labels) (t : int64)
      (h : option Histogram) (fh : option FloatHistogram).

Definition recorder (reply : Sent -> SeriesRef * option error)
  : Appender (list Sent) :=
  mkAppender (list Sent)
    (fun ref l t v d =>
       let s := SentAppend ref l t v in (reply s, s :: d))
    (fun ref l e d =>
       let s := SentExemplar ref l e in (reply s, s :: d))
    (fun ref l m d =>
       let s := SentMetadata ref l m in (reply s, s :: d))
    (fun ref l t h fh d =>
       let s := SentHistogram ref l t h fh in (reply s, s :: d)).

(** A hook runs on the world and on the state of the next appender. *)
Definition inWorld {D A} (m : M World A) : M (World * D) A :=
  fun s => match m s.1 with
           | Some (a, w') => Some (a, (w', s.2))
           | None => None
           end.

Definition callNext {D A} (f : D -> A * D) : M (World * D) A :=
  fun s => let '(a, d') := f s.2 in Some (a, (s.1, d')).

(** [return 0, fmt.Errorf("%s has exited", o.ID)]. *)
Definition exitedErr {D} : M (World * D) (SeriesRef * option error) :=
  let* oid := inWorld (gets (fun w => opts_ID (comp w))) in
  retM (0, Some (ErrExited oid)).

(** [c.metricsOutgoing.Inc()]. *)
Definition countOutgoing (w : World) : World :=
  mkWorld (set_metricsOutgoing (metricsOutgoing (comp w) + 1) (comp w)) (mem w).

(** The four hooks of the receiver, as passed to the interceptor. *)
Definition appendHook {D} (_ : SeriesRef) (l : loc) (t : int64) (v : float64)
    (next : Appender D) : M (World * D) (SeriesRef * option error) :=
  let* ex := inWorld (gets (fun w => exited (comp w))) in
  if ex : bool then exitedErr
  else
    let* newLbl := inWorld (relabel v l) in
    if IsEmpty newLbl then retM (0, None)
    else
      run inWorld (modify countOutgoing) in
      callNext (Append next 0 newLbl t v).

Definition exemplarHook {D} (_ : SeriesRef) (l : loc) (e : Exemplar)
    (next : Appender D) : M (World * D) (SeriesRef * option error) :=
  let* ex := inWorld (gets (fun w => exited (comp w))) in
  if ex : bool then exitedErr
  else
    let* newLbl := inWorld (relabel 0 l) in
    if IsEmpty newLbl then retM (0, None)
    else callNext (AppendExemplar next 0 newLbl e).

Definition metadataHook {D} (_ : SeriesRef) (l : loc) (m : Metadata)
    (next : Appender D) : M (World * D) (SeriesRef * option error) :=
  let* ex := inWorld (gets (fun w => exited (comp w))) in
  if ex : bool then exitedErr
  else
    let* newLbl := inWorld (relabel 0 l) in
    if IsEmpty newLbl then retM (0, None)
    else callNext (UpdateMetadata next 0 newLbl m).

Definition histogramHook {D} (_ : SeriesRef) (l : loc) (t : int64)
    (h : option Histogram) (fh : option FloatHistogram)
    (next : Appender D) : M (World * D) (SeriesRef * option error) :=
  let* ex := inWorld (gets (fun w => exited (comp w))) in
  if ex : bool then exitedErr
  else
    let* newLbl := inWorld (relabel 0 l) in
    if IsEmpty newLbl then retM (0, None)
    else callNext (AppendHistogram next 0 newLbl t h fh).

(** The cache entry [addToCache] builds from the result of [Process]. *)
Definition entryOf (res : Labels * bool) (newGlobal : uint64)
  : option labelAndID :=
  if res.2 then Some (mklabelAndID res.1 newGlobal) else None.

(** The labels a cache hit answers with. *)
Definition hitLabels (e : option labelAndID) : Labels :=
  match e with
  | Some x => labels x
  | None => EmptyLabels
  end.

Definition staleEvict (val : float64) (r : uint64)
    (lc : lru.Cache (option labelAndID)) : lru.Cache (option labelAndID) :=
  if IsStaleNaN val then lru.Remove r lc else lc.

(** A sequence of calls of [relabel], with the outputs in order. *)
Fixpoint relabelAll (calls : list (Z * positive))
  : M World (list (list (string * string))) :=
  match calls with
  | [] => retM []
  | (val, lbls) :: calls' =>
      let* out := relabel val lbls in
      let* outs := relabelAll calls' in
      retM (out :: outs)
  end.

(** *** Reachable worlds and the cache invariant *)

(** The entry the cache holds under [r], for the statements below: none
    when there is no such entry, and none when the cache has no list. *)
Definition cachePeek (r : uint64) (w : World) : option (option labelAndID) :=
  match cache (comp w) with
  | Some lc => lru.Peek r lc
  | None => None
  end.

(** Every entry of the cache belongs to a label set of the store and
    holds what the rules make of that set. *)
Definition cache_sound (rules : list Config) (s : LabelStore)
    (lc : lru.Cache (option labelAndID)) : Prop :=
  forall r e, lru.Peek r lc = Some e ->
    exists l, ids s !! l = Some r /\
      match e with
      | Some x => ProcessLabels l rules = (labels x, true) /\
                  ids s !! labels x = Some (id x)
      | None => ProcessLabels l rules = (EmptyLabels, false)
      end.

Definition Inv (w : World) : Prop :=
  exists lc, cache (comp w) = Some lc /\ 0 < lru.size lc /\
    ls_wf (ls (comp w)) /\ cache_sound (mrc (comp w)) (ls (comp w)) lc.

(** One step of a world: a call of [relabel], an [Update] with validated
    arguments, [Run] returning, a hook counting an outgoing sample,
    another user of the label store asking for an id, or a caller writing
    to the slices. *)
Inductive step : World -> World -> Prop :=
  | step_relabel w val lbls out w' :
      relabel val lbls w = Some (out, w') -> step w w'
  | step_Update w args c' :
      Validate args = None ->
      Update args (comp w) = Some (None, c') ->
      step w (mkWorld c' (mem w))
  | step_Run w c' :
      Run (comp w) = Some (None, c') -> step w (mkWorld c' (mem w))
  | step_outgoing w :
      step w (countOutgoing w)
  | step_store w l :
      step w (mkWorld (set_ls (storeWith l (ls (comp w))) (comp w)) (mem w))
  | step_mem w m' :
      step w (mkWorld (comp w) m').

(** The worlds a component can be in: built by [New] over a well-formed
    label store, then any number of steps. *)
Inductive Reachable : World -> Prop :=
  | reach_New o args s c m :
      GetServiceData_labelstore o = inl s -> ls_wf s ->
      New o args = inl c ->
      Reachable (mkWorld c m)
  | reach_step w w' :
      Reachable w -> step w w' -> Reachable w'.

(** *** The label store: facts *)

Lemma GetOrAddGlobalRefID_eq l s :
  GetOrAddGlobalRefID l s = Some (refOf l s, storeWith l s).
Proof.
  unfold GetOrAddGlobalRefID, refOf, storeWith. by destruct (ids s !! l).
Qed.

Lemma NewLabelStore_wf : ls_wf NewLabelStore.
Proof. split; simpl; intros *; by rewrite lookup_empty. Qed.

Lemma storeWith_lookup l s : ids (storeWith l s) !! l = Some (refOf l s).
Proof.
  unfold storeWith, refOf. destruct (ids s !! l) eqn:E; [done|].
  simpl. by rewrite lookup_insert_eq.
Qed.

Lemma storeWith_mono l s l' r :
  ids s !! l' = Some r -> ids (storeWith l s) !! l' = Some r.
Proof.
  intros H. unfold storeWith. destruct (ids s !! l) eqn:E; [done|].
  simpl. rewrite lookup_insert_ne; [done | congruence].
Qed.

Lemma storeWith_wf l s : ls_wf s -> ls_wf (storeWith l s).
Proof.
  intros [Hb Hi]. unfold storeWith. destruct (ids s !! l) eqn:E; [done|].
  split; simpl.
  - intros l0 r. rewrite lookup_insert. case_decide.
    + intros [= <-]. lia.
    + intros H0. apply Hb in H0. lia.
  - intros l1 l2 r. rewrite !lookup_insert.
    repeat case_decide; subst; try congruence.
    + intros [= <-] H2. apply Hb in H2. lia.
    + intros H1 [= <-]. apply Hb in H1. lia.
    + apply Hi.
Qed.

Lemma refOf_inj l1 l2 s :
  ls_wf s -> ids s !! l1 = Some (refOf l2 s) -> l1 = l2.
Proof.
  intros [Hb Hi] H. unfold refOf in H. destruct (ids s !! l2) eqn:E.
  - by apply (Hi l1 l2 z).
  - apply Hb in H. lia.
Qed.

Lemma deref_insert_eq (m : gmap positive (list (string * string))) l x :
  deref (<[l := x]> m) l = x.
Proof. unfold deref. by rewrite lookup_insert_eq. Qed.

(** *** [relabel], step by step *)

Lemma relabel_spec val lbls w lc :
  cache (comp w) = Some lc ->
  let content := deref (mem w) lbls in
  let s0 := ls (comp w) in
  let r := refOf content s0 in
  let s1 := storeWith content s0 in
  let rules := mrc (comp w) in
  exists out w',
    relabel val lbls w = Some (out, w') /\
    mrc (comp w') = rules /\
    exited (comp w') = exited (comp w) /\
    opts_ID (comp w') = opts_ID (comp w) /\
    metricsOutgoing (comp w') = metricsOutgoing (comp w) /\
    metricsProcessed (comp w') = metricsProcessed (comp w) + 1 /\
    cacheDeletes (comp w') =
      (if IsStaleNaN val then cacheDeletes (comp w) + 1
       else cacheDeletes (comp w)) /\
    match lru.Peek r lc with
    | Some e =>
        out = hitLabels e /\
        mem w' = mem w /\
        ls (comp w') = s1 /\
        cacheHits (comp w') = cacheHits (comp w) + 1 /\
        cacheMisses (comp w') = cacheMisses (comp w) /\
        cache (comp w') = Some (staleEvict val r (lru.Get r lc).2)
    | None =>
        let res := ProcessLabels content rules in
        let cp := fresh (dom (mem w)) in
        let s2 := if res.2 then storeWith res.1 s1 else s1 in
        out = res.1 /\
        mem w' = <[cp := scratch (ProcessBuilder content rules)]>
                   (<[cp := content]> (mem w)) /\
        ls (comp w') = s2 /\
        cacheHits (comp w') = cacheHits (comp w) /\
        cacheMisses (comp w') = cacheMisses (comp w) + 1 /\
        cache (comp w') =
          Some (staleEvict val r (lru.Add r (entryOf res (refOf res.1 s1)) lc))
    end.
Proof.
  destruct w as [c m]. destruct c. simpl. intros ->.
  unfold relabel, getFromCache, addToCache, deleteFromCache, cacheLen,
    Copy, Process, bindM, onComp, modify, gets, retM, panic.
  simpl. rewrite GetOrAddGlobalRefID_eq. simpl.
  unfold lru.Peek, lru.Get, staleEvict.
  destruct (lru.find _ (lru.items lc)) as [e|] eqn:E; simpl.
  - destruct (IsStaleNaN val); simpl; eexists _, _; (split; [reflexivity|]);
      simpl; repeat split; reflexivity.
  - rewrite deref_insert_eq. unfold entryOf.
    destruct (ProcessLabels _ _) as [relabelled keep] eqn:EP. simpl.
    destruct keep; simpl.
    + rewrite GetOrAddGlobalRefID_eq. simpl.
      destruct (IsStaleNaN val); simpl; eexists _, _; (split; [reflexivity|]);
        simpl; repeat split; reflexivity.
    + destruct (IsStaleNaN val); simpl; eexists _, _; (split; [reflexivity|]);
        simpl; repeat split; reflexivity.
Qed.

(** *** The invariant holds in every reachable world *)

Lemma ProcessLabels_drop l rules :
  (ProcessLabels l rules).2 = false ->
  ProcessLabels l rules = (EmptyLabels, false).
Proof. unfold ProcessLabels. by destruct (kept _). Qed.

Lemma cache_sound_mono rules s s' lc :
  (forall l r, ids s !! l = Some r -> ids s' !! l = Some r) ->
  cache_sound rules s lc -> cache_sound rules s' lc.
Proof.
  intros Hmono Hs r e He. destruct (Hs r e He) as (l & Hl & H).
  exists l. split; [by apply Hmono|].
  destruct e; [|done]. destruct H as [H1 H2]. split; [done | by apply Hmono].
Qed.

Lemma cache_sound_New rules s sz lc :
  lru.New sz = (Some lc, None) -> cache_sound rules s lc.
Proof. intros HN r e He. by rewrite (lru.Peek_New _ _ _ HN) in He. Qed.

Lemma size_New sz (lc : lru.Cache (option labelAndID)) :
  lru.New sz = (Some lc, None) -> lru.size lc = sz /\ 0 < sz.
Proof.
  unfold lru.New. destruct (sz <=? 0) eqn:E; intros [= <-].
  apply Z.leb_gt in E. done.
Qed.

Lemma cache_sound_Get rules s r lc :
  cache_sound rules s lc -> cache_sound rules s (lru.Get r lc).2.
Proof. intros Hs r' e. rewrite lru.Peek_Get. apply Hs. Qed.

Lemma cache_sound_staleEvict rules s val r lc :
  cache_sound rules s lc -> cache_sound rules s (staleEvict val r lc).
Proof.
  intros Hs r' e. unfold staleEvict. destruct (IsStaleNaN val); [|apply Hs].
  destruct (decide (r = r')) as [->|Hne].
  - by rewrite lru.Peek_Remove_eq.
  - rewrite lru.Peek_Remove_ne; [apply Hs | done].
Qed.

Lemma size_staleEvict val r (lc : lru.Cache (option labelAndID)) :
  lru.size (staleEvict val r lc) = lru.size lc.
Proof. unfold staleEvict. by destruct (IsStaleNaN val). Qed.

Lemma cache_sound_Add rules s l lc :
  0 < lru.size lc ->
  let s1 := storeWith l s in
  let res := ProcessLabels l rules in
  let s2 := if res.2 then storeWith res.1 s1 else s1 in
  cache_sound rules s lc ->
  cache_sound rules s2
    (lru.Add (refOf l s) (entryOf res (refOf res.1 s1)) lc).
Proof.
  intros Hsz s1 res s2 Hs. subst s1 res s2.
  pose proof (ProcessLabels_drop l rules) as Hdrop.
  destruct (ProcessLabels l rules) as [rl keep] eqn:EP. simpl in *.
  set (s2 := if keep then storeWith rl (storeWith l s) else storeWith l s).
  assert (Hmono : forall l0 r0, ids s !! l0 = Some r0 -> ids s2 !! l0 = Some r0).
  { intros l0 r0 H0. subst s2. destruct keep;
      [apply storeWith_mono|]; by apply storeWith_mono. }
  intros r' e He. destruct (decide (refOf l s = r')) as [<-|Hne].
  - rewrite lru.Peek_Add_eq in He by done. injection He as <-.
    exists l. split.
    + subst s2. destruct keep; [apply storeWith_mono|]; apply storeWith_lookup.
    + unfold entryOf. subst s2. destruct keep; simpl.
      * split; [done | apply storeWith_lookup].
      * rewrite EP. by apply Hdrop.
  - apply lru.Peek_Add_ne in He; [|done].
    apply (cache_sound_mono rules s s2 lc Hmono Hs r' e He).
Qed.

Lemma relabel_Inv val lbls w out w' :
  Inv w -> relabel val lbls w = Some (out, w') -> Inv w'.
Proof.
  intros (lc & Hc & Hsz & Hwf & Hs) Hrun.
  destruct (relabel_spec val lbls w lc Hc)
    as (out0 & w0 & Hrun0 & Hmrc & _ & _ & _ & _ & _ & Hcase).
  rewrite Hrun in Hrun0. injection Hrun0 as <- <-.
  unfold Inv. rewrite Hmrc.
  destruct (lru.Peek _ lc) as [e|] eqn:EP.
  - destruct Hcase as (_ & _ & Hls & _ & _ & Hc').
    eexists. split; [exact Hc'|]. rewrite Hls.
    split; [by rewrite size_staleEvict, lru.size_Get|].
    split; [by apply storeWith_wf|].
    apply cache_sound_staleEvict, cache_sound_Get.
    eapply cache_sound_mono; [|exact Hs]. intros *. apply storeWith_mono.
  - destruct Hcase as (_ & _ & Hls & _ & _ & Hc').
    eexists. split; [exact Hc'|]. rewrite Hls.
    split; [by rewrite size_staleEvict, lru.size_Add|].
    split.
    + destruct (_.2); [apply storeWith_wf|]; by apply storeWith_wf.
    + apply cache_sound_staleEvict. by apply cache_sound_Add.
Qed.

Lemma Update_spec args c :
  exists c', Update args c = Some (None, c') /\
    cache c' = (lru.New (CacheSize args)).1 /\
    mrc c' = ComponentToPromRelabelConfigs (MetricRelabelConfigs args) /\
    fanout c' = ForwardTo args /\
    ls c' = ls c /\ exited c' = exited c /\ opts_ID c' = opts_ID c /\
    cacheHits c' = cacheHits c /\ cacheMisses c' = cacheMisses c.
Proof.
  destruct c. unfold Update, clearCache, bindM, modify, retM.
  destruct (lru.New _) as [oc oe]. simpl. eexists. split; [reflexivity|].
  simpl. repeat split; reflexivity.
Qed.

Lemma New_spec o args c :
  New o args = inl c ->
  exists lc, 0 < CacheSize args /\
    cache c = Some lc /\ lru.New (CacheSize args) = (Some lc, None) /\
    GetServiceData_labelstore o = inl (ls c) /\
    mrc c = ComponentToPromRelabelConfigs (MetricRelabelConfigs args) /\
    exited c = false /\ opts_ID c = ID o.
Proof.
  unfold New. destruct (lru.New (CacheSize args)) as [oc [e|]] eqn:EN; [done|].
  destruct (GetServiceData_livedebugging o) as [p|]; [|done].
  destruct (GetServiceData_labelstore o) as [s|]; [|done].
  destruct (registerAll _ _); [done|].
  match goal with |- context [Update args ?c0] =>
    destruct (Update_spec args c0) as (c' & -> & Hc & Hm & _ & Hl & He & Hi & _)
  end.
  intros [= <-]. rewrite EN in Hc. simpl in *.
  unfold lru.New in EN. destruct (CacheSize args <=? 0) eqn:E; [done|].
  injection EN as <-. apply Z.leb_gt in E.
  eexists. split; [done|]. split; [exact Hc|]. split; [done|].
  rewrite Hl, Hm, He, Hi. done.
Qed.

Lemma step_Inv w w' : Inv w -> step w w' -> Inv w'.
Proof.
  intros IH Hstep.
  destruct Hstep as [w val lbls out w' Hrun | w args c' HV HU | w c' HR | w
                    | w l | w m'].
  - by eapply relabel_Inv.
  - destruct (Update_spec args (comp w)) as (c0 & HU0 & Hc & Hm & _ & Hl & _).
    rewrite HU in HU0. injection HU0 as <-.
    destruct IH as (lc & _ & _ & Hwf & _).
    unfold Validate in HV. destruct (CacheSize args <=? 0) eqn:E; [done|].
    unfold lru.New in Hc. rewrite E in Hc. simpl in Hc.
    eexists. simpl. split; [exact Hc|]. apply Z.leb_gt in E.
    split; [done|]. rewrite Hl. split; [done|].
    intros r e He. done.
  - unfold Run, bindM, modify, retM in HR. injection HR as <-.
    destruct IH as (lc & Hc & Hsz & Hwf & Hsound). destruct w as [c m].
    destruct c. simpl in *. by exists lc.
  - destruct IH as (lc & Hc & Hsz & Hwf & Hsound). destruct w as [c m].
    destruct c. simpl in *. by exists lc.
  - destruct IH as (lc & Hc & Hsz & Hwf & Hsound). destruct w as [c m].
    destruct c. simpl in *. exists lc. split; [done|]. split; [done|].
    split; [by apply storeWith_wf|].
    eapply cache_sound_mono; [|exact Hsound]. intros *. apply storeWith_mono.
  - done.
Qed.

Lemma Reachable_Inv w : Reachable w -> Inv w.
Proof.
  induction 1 as [o args s c m Hs Hwf HN | w w' _ IH Hstep].
  - destruct (New_spec o args c HN) as (lc & Hsz & Hc & HNew & Hls & _).
    exists lc. simpl. split; [done|].
    destruct (size_New _ _ HNew) as [-> _]. split; [done|].
    rewrite Hs in Hls. injection Hls as <-. split; [done|].
    by eapply cache_sound_New.
  - by eapply step_Inv.
Qed.

Lemma Reachable_rtc w w' : Reachable w -> rtc step w w' -> Reachable w'.
Proof.
  intros HR Hsteps. induction Hsteps as [|w w1 w2 H1 _ IH]; [done|].
  apply IH. by eapply reach_step.
Qed.

Lemma fresh_unallocated (m : gmap positive (list (string * string))) :
  m !! fresh (dom m) = None.
Proof. apply not_elem_of_dom, is_fresh. Qed.

Lemma hit_is_Process w r lc e l :
  Inv w -> cache (comp w) = Some lc ->
  ids (ls (comp w)) !! l = Some r \/ r = refOf l (ls (comp w)) ->
  lru.Peek r lc = Some e ->
  hitLabels e = (ProcessLabels l (mrc (comp w))).1.
Proof.
  intros (lc0 & Hc0 & _ & Hwf & Hs) Hc Hr He.
  rewrite Hc in Hc0. injection Hc0 as <-.
  destruct (Hs r e He) as (l0 & Hl0 & H0).
  assert (l0 = l) as ->.
  { destruct Hr as [Hr| ->].
    - destruct Hwf as [_ Hi]. by apply (Hi l0 l r).
    - by apply (refOf_inj l0 l (ls (comp w))). }
  destruct e as [x|]; simpl.
  - destruct H0 as [-> _]. done.
  - by rewrite H0.
Qed.

(** *** The claims on [relabel] *)

(** What a call of [relabel] does in a reachable world. *)
Lemma relabel_reachable val lbls w :
  Reachable w ->
  let content := deref (mem w) lbls in
  let rules := mrc (comp w) in
  let r := refOf content (ls (comp w)) in
  let s1 := storeWith content (ls (comp w)) in
  let res := ProcessLabels content rules in
  exists out w' lc lc',
    relabel val lbls w = Some (out, w') /\
    cache (comp w) = Some lc /\ cache (comp w') = Some lc' /\
    out = res.1 /\
    match lru.Peek r lc with
    | None =>
        let cp := fresh (dom (mem w)) in
        let entry := entryOf res (refOf res.1 s1) in
        cacheMisses (comp w') = cacheMisses (comp w) + 1 /\
        cacheHits (comp w') = cacheHits (comp w) /\
        mem w !! cp = None /\
        mem w' = <[cp := scratch (ProcessBuilder content rules)]> (mem w) /\
        lru.Peek r (lru.Add r entry lc) = Some entry /\
        lc' = staleEvict val r (lru.Add r entry lc)
    | Some e =>
        out = hitLabels e /\
        cacheHits (comp w') = cacheHits (comp w) + 1 /\
        cacheMisses (comp w') = cacheMisses (comp w) /\
        mem w' = mem w /\
        lc' = staleEvict val r (lru.Get r lc).2
    end.
Proof.
  intros HR content rules r s1 res.
  pose proof (Reachable_Inv w HR) as HI.
  destruct HI as (lc & Hc & Hsz & Hwf & Hs).
  destruct (relabel_spec val lbls w lc Hc)
    as (out & w' & Hrun & _ & _ & _ & _ & _ & _ & Hcase).
  fold content r s1 rules res in Hcase.
  destruct (lru.Peek r lc) as [e|] eqn:EP.
  - destruct Hcase as (Hout & Hmem & _ & Hh & Hm & Hc').
    exists out, w', lc, (staleEvict val r (lru.Get r lc).2).
    repeat (split; [done|]). rewrite EP. split; [|done].
    rewrite Hout. apply (hit_is_Process w r lc e content); [|done| |done].
    + by apply Reachable_Inv.
    + by right.
  - destruct Hcase as (Hout & Hmem & _ & Hh & Hm & Hc').
    eexists out, w', lc, _.
    repeat (split; [done|]). rewrite EP.
    split; [done|]. split; [done|].
    split; [apply fresh_unallocated|].
    split; [by rewrite Hmem, insert_insert_eq|].
    split; [by apply lru.Peek_Add_eq | done].
Qed.

Lemma relabel_input_frame val lbls w out w' :
  Reachable w ->
  is_Some (mem w !! lbls) ->
  relabel val lbls w = Some (out, w') ->
  deref (mem w') lbls = deref (mem w) lbls /\
  (forall l, is_Some (mem w !! l) -> mem w' !! l = mem w !! l).
Proof.
  intros HR Hl Hrun.
  destruct (relabel_reachable val lbls w HR)
    as (out0 & w0 & lc & lc' & Hrun0 & _ & _ & _ & Hcase).
  rewrite Hrun in Hrun0. injection Hrun0 as <- <-.
  assert (Hframe : forall l, is_Some (mem w !! l) -> mem w' !! l = mem w !! l).
  { intros l Hsome. destruct (lru.Peek _ lc).
    - destruct Hcase as (_ & _ & _ & -> & _). done.
    - destruct Hcase as (_ & _ & Hfresh & -> & _).
      rewrite lookup_insert_ne; [done|]. intros <-.
      rewrite Hfresh in Hsome. by destruct Hsome. }
  split; [unfold deref; by rewrite Hframe | done].
Qed.

Lemma relabelAll_correct calls w :
  Reachable w ->
  (forall c, In c calls -> is_Some (mem w !! c.2)) ->
  exists outs w',
    relabelAll calls w = Some (outs, w') /\
    outs = List.map (fun c => (ProcessLabels (deref (mem w) c.2)
                                 (mrc (comp w))).1) calls.
Proof.
  revert w. induction calls as [|[val lbls] calls IH]; intros w HR Hall.
  - by exists [], w.
  - destruct (relabel_reachable val lbls w HR)
      as (out & w1 & lc & lc' & Hrun & Hc & _ & Hout & _).
    destruct (relabel_spec val lbls w lc Hc) as (out0 & w0 & Hrun0 & Hmrc & _).
    rewrite Hrun in Hrun0. injection Hrun0 as <- <-.
    assert (Hl : is_Some (mem w !! lbls)) by (apply (Hall (val, lbls)); by left).
    destruct (relabel_input_frame val lbls w out w1 HR Hl Hrun) as [_ Hframe].
    assert (HR1 : Reachable w1) by (eapply reach_step; [done | by econstructor]).
    destruct (IH w1 HR1) as (outs & w' & Hruns & Houts).
    { intros c Hc1. rewrite Hframe; apply Hall; by right. }
    exists (out :: outs), w'. split.
    + simpl. unfold bindM at 1. rewrite Hrun.
      unfold bindM at 1. rewrite Hruns. done.
    + simpl. rewrite Hout. f_equal. rewrite Houts, Hmrc.
      apply map_ext_in. intros c Hc1. unfold deref.
      rewrite Hframe; [done|]. apply Hall. by right.
Qed.

(** C1. Cache correctness.  In every reachable world, a call
    [relabel val lbls] returns, and what it returns is what the rules
    make of a fresh copy of the label set.  Looking the set's global ref
    id up in the cache decides how: on a miss the rules run on a newly
    allocated copy, one miss is counted, and the cache receives, under
    that id, nil when the series is dropped and otherwise the output
    labels with their own global ref id; on a hit the cached labels are
    returned (none for a nil entry), one hit is counted, and no copy is
    made nor any entry computed.  Hence any sequence of calls on
    allocated slices returns, call by call, what the rules make of each
    label set. *)
Theorem cache_correctness w :
  Reachable w ->
  (forall val lbls,
     let content := deref (mem w) lbls in
     let rules := mrc (comp w) in
     let r := refOf content (ls (comp w)) in
     let s1 := storeWith content (ls (comp w)) in
     let res := ProcessLabels content rules in
     exists out w' lc lc',
       relabel val lbls w = Some (out, w') /\
       cache (comp w) = Some lc /\ cache (comp w') = Some lc' /\
       out = res.1 /\
       match lru.Peek r lc with
       | None =>
           let cp := fresh (dom (mem w)) in
           let entry := entryOf res (refOf res.1 s1) in
           cacheMisses (comp w') = cacheMisses (comp w) + 1 /\
           cacheHits (comp w') = cacheHits (comp w) /\
           mem w !! cp = None /\
           mem w' = <[cp := scratch (ProcessBuilder content rules)]> (mem w) /\
           lru.Peek r (lru.Add r entry lc) = Some entry /\
           lc' = staleEvict val r (lru.Add r entry lc)
       | Some e =>
           out = hitLabels e /\
           cacheHits (comp w') = cacheHits (comp w) + 1 /\
           cacheMisses (comp w') = cacheMisses (comp w) /\
           mem w' = mem w /\
           lc' = staleEvict val r (lru.Get r lc).2
       end) /\
  (forall calls,
     (forall c, In c calls -> is_Some (mem w !! c.2)) ->
     exists outs w',
       relabelAll calls w = Some (outs, w') /\
       outs = List.map (fun c => (ProcessLabels (deref (mem w) c.2)
                                    (mrc (comp w))).1) calls).
Proof.
  intros HR. split.
  - intros val lbls. by apply relabel_reachable.
  - intros calls. by apply relabelAll_correct.
Qed.

(** C2. No mutation of the input.  In every reachable world, a call
    [relabel val lbls] on an allocated slice returns and leaves the
    content of [lbls] as it was; indeed every array that was allocated
    before the call is unchanged: the memory after the call is either the
    memory before it (a cache hit), or differs from it in one newly
    allocated array only, the copy that the rules were run on. *)
Theorem relabel_input_unchanged val lbls w :
  Reachable w ->
  is_Some (mem w !! lbls) ->
  exists out w',
    relabel val lbls w = Some (out, w') /\
    mem w' !! lbls = mem w !! lbls /\
    deref (mem w') lbls = deref (mem w) lbls /\
    (forall l, is_Some (mem w !! l) -> mem w' !! l = mem w !! l) /\
    (mem w' = mem w \/
     exists cp, mem w !! cp = None /\
       mem w' = <[cp := scratch (ProcessBuilder (deref (mem w) lbls)
                                   (mrc (comp w)))]> (mem w)).
Proof.
  intros HR Hl.
  destruct (relabel_reachable val lbls w HR)
    as (out & w' & lc & lc' & Hrun & _ & _ & _ & Hcase).
  exists out, w'. split; [done|].
  destruct (relabel_input_frame val lbls w out w' HR Hl Hrun) as [Hd Hframe].
  split; [by apply Hframe|]. split; [done|]. split; [done|].
  destruct (lru.Peek _ lc).
  - left. by destruct Hcase as (_ & _ & _ & -> & _).
  - right. destruct Hcase as (_ & _ & Hfresh & -> & _). eauto.
Qed.

(** *** The hooks, step by step *)

Lemma appendHook_exited {D} ref l t v (next : Appender D) w d :
  exited (comp w) = true ->
  appendHook ref l t v next (w, d)
  = Some ((0, Some (ErrExited (opts_ID (comp w)))), (w, d)).
Proof.
  intros He. unfold appendHook, exitedErr, bindM, inWorld, gets, retM.
  simpl. rewrite He. done.
Qed.

Lemma exemplarHook_exited {D} ref l e (next : Appender D) w d :
  exited (comp w) = true ->
  exemplarHook ref l e next (w, d)
  = Some ((0, Some (ErrExited (opts_ID (comp w)))), (w, d)).
Proof.
  intros He. unfold exemplarHook, exitedErr, bindM, inWorld, gets, retM.
  simpl. rewrite He. done.
Qed.

Lemma metadataHook_exited {D} ref l m (next : Appender D) w d :
  exited (comp w) = true ->
  metadataHook ref l m next (w, d)
  = Some ((0, Some (ErrExited (opts_ID (comp w)))), (w, d)).
Proof.
  intros He. unfold metadataHook, exitedErr, bindM, inWorld, gets, retM.
  simpl. rewrite He. done.
Qed.

Lemma histogramHook_exited {D} ref l t h fh (next : Appender D) w d :
  exited (comp w) = true ->
  histogramHook ref l t h fh next (w, d)
  = Some ((0, Some (ErrExited (opts_ID (comp w)))), (w, d)).
Proof.
  intros He. unfold histogramHook, exitedErr, bindM, inWorld, gets, retM.
  simpl. rewrite He. done.
Qed.

Lemma appendHook_run {D} ref l t v (next : Appender D) w d out w' :
  exited (comp w) = false ->
  relabel v l w = Some (out, w') ->
  appendHook ref l t v next (w, d)
  = if IsEmpty out then Some ((0, None), (w', d))
    else Some ((Append next 0 out t v d).1,
               (countOutgoing w', (Append next 0 out t v d).2)).
Proof.
  intros He Hrun.
  unfold appendHook, bindM, inWorld, callNext, gets, modify, retM.
  cbn [fst snd]. rewrite He. cbn [fst snd]. rewrite Hrun. cbn [fst snd].
  destruct (IsEmpty out); [done|].
  simpl. by destruct (Append next 0 out t v d).
Qed.

Lemma exemplarHook_run {D} ref l e (next : Appender D) w d out w' :
  exited (comp w) = false ->
  relabel 0 l w = Some (out, w') ->
  exemplarHook ref l e next (w, d)
  = if IsEmpty out then Some ((0, None), (w', d))
    else Some ((AppendExemplar next 0 out e d).1,
               (w', (AppendExemplar next 0 out e d).2)).
Proof.
  intros He Hrun.
  unfold exemplarHook, bindM, inWorld, callNext, gets, modify, retM.
  cbn [fst snd]. rewrite He. cbn [fst snd]. rewrite Hrun. cbn [fst snd].
  destruct (IsEmpty out); [done|].
  simpl. by destruct (AppendExemplar next 0 out e d).
Qed.

Lemma metadataHook_run {D} ref l m (next : Appender D) w d out w' :
  exited (comp w) = false ->
  relabel 0 l w = Some (out, w') ->
  metadataHook ref l m next (w, d)
  = if IsEmpty out then Some ((0, None), (w', d))
    else Some ((UpdateMetadata next 0 out m d).1,
               (w', (UpdateMetadata next 0 out m d).2)).
Proof.
  intros He Hrun.
  unfold metadataHook, bindM, inWorld, callNext, gets, modify, retM.
  cbn [fst snd]. rewrite He. cbn [fst snd]. rewrite Hrun. cbn [fst snd].
  destruct (IsEmpty out); [done|].
  simpl. by destruct (UpdateMetadata next 0 out m d).
Qed.

Lemma histogramHook_run {D} ref l t h fh (next : Appender D) w d out w' :
  exited (comp w) = false ->
  relabel 0 l w = Some (out, w') ->
  histogramHook ref l t h fh next (w, d)
  = if IsEmpty out then Some ((0, None), (w', d))
    else Some ((AppendHistogram next 0 out t h fh d).1,
               (w', (AppendHistogram next 0 out t h fh d).2)).
Proof.
  intros He Hrun.
  unfold histogramHook, bindM, inWorld, callNext, gets, modify, retM.
  cbn [fst snd]. rewrite He. cbn [fst snd]. rewrite Hrun. cbn [fst snd].
  destruct (IsEmpty out); [done|].
  simpl. by destruct (AppendHistogram next 0 out t h fh d).
Qed.

(** A hook moves the world by steps: reachable worlds stay reachable. *)
Lemma appendHook_steps {D} ref l t v (next : Appender D) w d r w' d' :
  appendHook ref l t v next (w, d) = Some (r, (w', d')) -> rtc step w w'.
Proof.
  destruct (exited (comp w)) eqn:He.
  - rewrite appendHook_exited by done. by intros [= _ <- _].
  - destruct (relabel v l w) as [[out w1]|] eqn:Hrun.
    + rewrite (appendHook_run ref l t v next w d out w1 He Hrun).
      destruct (IsEmpty out); intros [= _ <- _].
      * apply rtc_once. by econstructor.
      * eapply rtc_l; [by econstructor|]. apply rtc_once. apply step_outgoing.
    + unfold appendHook, bindM, inWorld, gets. cbn [fst snd].
      rewrite He. cbn [fst snd]. by rewrite Hrun.
Qed.

Lemma exemplarHook_steps {D} ref l e (next : Appender D) w d r w' d' :
  exemplarHook ref l e next (w, d) = Some (r, (w', d')) -> rtc step w w'.
Proof.
  destruct (exited (comp w)) eqn:He.
  - rewrite exemplarHook_exited by done. by intros [= _ <- _].
  - destruct (relabel 0 l w) as [[out w1]|] eqn:Hrun.
    + rewrite (exemplarHook_run ref l e next w d out w1 He Hrun).
      destruct (IsEmpty out); intros [= _ <- _]; apply rtc_once; by econstructor.
    + unfold exemplarHook, bindM, inWorld, gets. cbn [fst snd].
      rewrite He. cbn [fst snd]. by rewrite Hrun.
Qed.

Lemma metadataHook_steps {D} ref l m (next : Appender D) w d r w' d' :
  metadataHook ref l m next (w, d) = Some (r, (w', d')) -> rtc step w w'.
Proof.
  destruct (exited (comp w)) eqn:He.
  - rewrite metadataHook_exited by done. by intros [= _ <- _].
  - destruct (relabel 0 l w) as [[out w1]|] eqn:Hrun.
    + rewrite (metadataHook_run ref l m next w d out w1 He Hrun).
      destruct (IsEmpty out); intros [= _ <- _]; apply rtc_once; by econstructor.
    + unfold metadataHook, bindM, inWorld, gets. cbn [fst snd].
      rewrite He. cbn [fst snd]. by rewrite Hrun.
Qed.

Lemma histogramHook_steps {D} ref l t h fh (next : Appender D) w d r w' d' :
  histogramHook ref l t h fh next (w, d) = Some (r, (w', d')) -> rtc step w w'.
Proof.
  destruct (exited (comp w)) eqn:He.
  - rewrite histogramHook_exited by done. by intros [= _ <- _].
  - destruct (relabel 0 l w) as [[out w1]|] eqn:Hrun.
    + rewrite (histogramHook_run ref l t h fh next w d out w1 He Hrun).
      destruct (IsEmpty out); intros [= _ <- _]; apply rtc_once; by econstructor.
    + unfold histogramHook, bindM, inWorld, gets. cbn [fst snd].
      rewrite He. cbn [fst snd]. by rewrite Hrun.
Qed.

Lemma relabel_cache_without_list val lbls w :
  cache (comp w) = None -> relabel val lbls w = None.
Proof.
  destruct w as [c m]. destruct c. simpl. intros ->.
  unfold relabel, getFromCache, bindM, onComp, modify, gets, retM, panic.
  simpl. by rewrite GetOrAddGlobalRefID_eq.
Qed.

Lemma relabel_keeps val lbls w out w' :
  relabel val lbls w = Some (out, w') ->
  exited (comp w') = exited (comp w) /\ opts_ID (comp w') = opts_ID (comp w).
Proof.
  intros Hrun. destruct (cache (comp w)) as [lc|] eqn:Hc.
  - destruct (relabel_spec val lbls w lc Hc)
      as (out0 & w0 & Hrun0 & _ & He & Hi & _).
    rewrite Hrun in Hrun0. by injection Hrun0 as <- <-.
  - by rewrite relabel_cache_without_list in Hrun.
Qed.

Lemma step_keeps w w' :
  step w w' ->
  (exited (comp w) = true -> exited (comp w') = true) /\
  opts_ID (comp w') = opts_ID (comp w).
Proof.
  intros [w0 val lbls out w1 Hrun | w0 args c' HV HU | w0 c' HR | w0
         | w0 l | w0 m'].
  - destruct (relabel_keeps _ _ _ _ _ Hrun) as [-> ->]. done.
  - destruct (Update_spec args (comp w0)) as (c0 & HU0 & _ & _ & _ & _ & He & Hi & _).
    rewrite HU in HU0. injection HU0 as <-. simpl. by rewrite He, Hi.
  - unfold Run, bindM, modify, retM in HR. injection HR as <-.
    destruct w0 as [c m]. by destruct c.
  - destruct w0 as [c m]. by destruct c.
  - destruct w0 as [c m]. by destruct c.
  - done.
Qed.

Lemma rtc_step_keeps w w' :
  rtc step w w' ->
  (exited (comp w) = true -> exited (comp w') = true) /\
  opts_ID (comp w') = opts_ID (comp w).
Proof.
  induction 1 as [|w w1 w2 H1 _ [IHe IHi]]; [done|].
  destruct (step_keeps _ _ H1) as [He Hi]. split; [auto | congruence].
Qed.

(** *** The claims on the receiver and on the arguments *)


(** C5. Empty label sets are dropped silently.  In every reachable world
    of a running component, [relabel] returns the same labels for a
    sample and for an exemplar, a metadata update or a histogram; they
    are empty whenever the rules drop the series; and when they are empty
    each of the four hooks returns (0, nil) and leaves the state of the
    next appender, whatever it is, untouched: nothing is forwarded. *)
Theorem empty_labels_not_forwarded val lbls w :
  Reachable w ->
  exited (comp w) = false ->
  let content := deref (mem w) lbls in
  exists out w' w0',
    relabel val lbls w = Some (out, w') /\
    relabel 0 lbls w = Some (out, w0') /\
    ((ProcessLabels content (mrc (comp w))).2 = false -> IsEmpty out = true) /\
    (IsEmpty out = true ->
     forall D ref t e m h fh (next : Appender D) d,
       appendHook ref lbls t val next (w, d) = Some ((0, None), (w', d)) /\
       exemplarHook ref lbls e next (w, d) = Some ((0, None), (w0', d)) /\
       metadataHook ref lbls m next (w, d) = Some ((0, None), (w0', d)) /\
       histogramHook ref lbls t h fh next (w, d) = Some ((0, None), (w0', d))).
Proof.
  intros HR Hex content.
  destruct (relabel_reachable val lbls w HR)
    as (out & w' & lc & lc' & Hrun & _ & _ & Hout & _).
  destruct (relabel_reachable 0 lbls w HR)
    as (out0 & w0' & lc0 & lc0' & Hrun0 & _ & _ & Hout0 & _).
  assert (out0 = out) as -> by congruence.
  exists out, w', w0'. split; [done|]. split; [done|]. split.
  - intros Hdrop. rewrite Hout.
    fold content. by rewrite (ProcessLabels_drop _ _ Hdrop).
  - intros Hempty D ref t e m h fh next d.
    rewrite (appendHook_run ref lbls t val next w d out w' Hex Hrun).
    rewrite (exemplarHook_run ref lbls e next w d out w0' Hex Hrun0).
    rewrite (metadataHook_run ref lbls m next w d out w0' Hex Hrun0).
    rewrite (histogramHook_run ref lbls t h fh next w d out w0' Hex Hrun0).
    by rewrite Hempty.
Qed.

(** C10. Appends after exit.  [Run] returns a nil error and leaves the
    component marked as exited; in every world that any number of later
    steps lead to, each of the four hooks returns the error that the
    component has exited, and leaves both the world and the state of the
    next appender, whatever it is, untouched: nothing is forwarded. *)
Theorem exited_rejects_appends w :
  exists c',
    Run (comp w) = Some (None, c') /\
    forall w2, rtc step (mkWorld c' (mem w)) w2 ->
      forall D ref l t v e m h fh (next : Appender D) d,
        let err := (0, Some (ErrExited (opts_ID (comp w)))) in
        appendHook ref l t v next (w2, d) = Some (err, (w2, d)) /\
        exemplarHook ref l e next (w2, d) = Some (err, (w2, d)) /\
        metadataHook ref l m next (w2, d) = Some (err, (w2, d)) /\
        histogramHook ref l t h fh next (w2, d) = Some (err, (w2, d)).
Proof.
  exists (set_exited true (comp w)). split; [done|].
  intros w2 Hsteps D ref l t v e m h fh next d err.
  destruct (rtc_step_keeps _ _ Hsteps) as [He Hi].
  assert (Hex : exited (comp w2) = true).
  { apply He. destruct w as [c m0]. by destruct c. }
  assert (Hid : opts_ID (comp w2) = opts_ID (comp w)).
  { rewrite Hi. destruct w as [c m0]. by destruct c. }
  subst err. rewrite <- Hid.
  rewrite appendHook_exited, exemplarHook_exited, metadataHook_exited,
    histogramHook_exited by done.
  done.
Qed.

(** C4. Cache capacity.  [SetToDefault] sets the capacity to 100,000;
    [Validate] returns an error exactly when the capacity is at most 0,
    the error reporting that capacity; and every [Update] returns a nil
    error and replaces the cache by what [lru.New] builds for the new
    capacity, so that no entry of the old cache is left, the new rules
    being installed with it: for arguments that pass [Validate] the new
    cache is empty and has the configured capacity. *)
Theorem cache_capacity :
  (forall arg, CacheSize (SetToDefault arg) = 100000) /\
  (forall arg, is_Some (Validate arg) <-> CacheSize arg <= 0) /\
  (forall arg err, Validate arg = Some err ->
     err = ErrMaxCacheSize (CacheSize arg)) /\
  (forall args c, exists c',
     Update args c = Some (None, c') /\
     cache c' = (lru.New (CacheSize args)).1 /\
     (forall r m, cachePeek r (mkWorld c' m) = None) /\
     mrc c' = ComponentToPromRelabelConfigs (MetricRelabelConfigs args) /\
     (Validate args = None ->
      cache c' = Some (lru.mkCache (CacheSize args) []))).
Proof.
  split; [done|]. split; [|split].
  - intros arg. unfold Validate. destruct (CacheSize arg <=? 0) eqn:E.
    + apply Z.leb_le in E. split; [done | eauto].
    + apply Z.leb_gt in E. split; [intros [? [=]] | lia].
  - intros arg err. unfold Validate.
    destruct (CacheSize arg <=? 0); [by intros [= <-] | done].
  - intros args c.
    destruct (Update_spec args c) as (c' & HU & Hc & Hm & _).
    exists c'. split; [done|]. split; [done|]. split; [|split; [done|]].
    + intros r m. unfold cachePeek. simpl. rewrite Hc. unfold lru.New.
      by destruct (CacheSize args <=? 0).
    + rewrite Hc. unfold Validate, lru.New.
      by destruct (CacheSize args <=? 0).
Qed.

(** *** More on the component: construction, counters, the gauge *)

Lemma count_IsEmpty {A} (l : Labels) (a b : A) :
  (if Z.of_nat (length l) =? 0 then a else b) = (if IsEmpty l then a else b).
Proof. by destruct l. Qed.

(** What else a call of [relabel] leaves behind: the gauge, the debug
    record, and the fields it does not touch. *)
Lemma relabel_effects val lbls w lc :
  cache (comp w) = Some lc ->
  exists out w' lc',
    relabel val lbls w = Some (out, w') /\
    cache (comp w') = Some lc' /\
    cacheSize (comp w') = lru.Len lc' /\
    fanout (comp w') = fanout (comp w) /\
    onStateChange (comp w') = onStateChange (comp w) /\
    debugDataPublisher (comp w')
    = PublishIfActive
        (mkData (opts_ID (comp w)) (if IsEmpty out then 0 else 1)
           (deref (mem w') lbls) out)
        (debugDataPublisher (comp w)).
Proof.
  destruct w as [c m]. destruct c. simpl. intros ->.
  unfold relabel, getFromCache, addToCache, deleteFromCache, cacheLen,
    Copy, Process, bindM, onComp, modify, gets, retM, panic.
  simpl. rewrite GetOrAddGlobalRefID_eq. simpl.
  unfold lru.Get.
  destruct (lru.find _ (lru.items lc)) as [e|] eqn:E; simpl.
  - destruct (IsStaleNaN val); simpl; eexists _, _, _;
      (split; [reflexivity|]); simpl; rewrite count_IsEmpty;
      repeat split; reflexivity.
  - rewrite deref_insert_eq.
    destruct (ProcessLabels _ _) as [relabelled keep] eqn:EP. simpl.
    destruct keep; simpl.
    + rewrite GetOrAddGlobalRefID_eq. simpl.
      destruct (IsStaleNaN val); simpl; eexists _, _, _;
        (split; [reflexivity|]); simpl; rewrite count_IsEmpty;
        repeat split; reflexivity.
    + destruct (IsStaleNaN val); simpl; eexists _, _, _;
        (split; [reflexivity|]); simpl; rewrite count_IsEmpty;
        repeat split; reflexivity.
Qed.

Lemma registerAll_None reg names :
  registerAll reg names = None <-> (forall n, In n names -> reg n = None).
Proof.
  induction names as [|n names IH]; simpl.
  - split; [by intros _ ? [] | done].
  - destruct (reg n) eqn:E.
    + split; [done|]. intros H. specialize (H n (or_introl eq_refl)). congruence.
    + rewrite IH. split.
      * intros H n' [<-|Hin]; [done | by apply H].
      * intros H n' Hin. apply H. by right.
Qed.

Lemma Update_frame args c c' :
  Update args c = Some (None, c') ->
  metricsProcessed c' = metricsProcessed c /\
  metricsOutgoing c' = metricsOutgoing c /\
  cacheHits c' = cacheHits c /\
  cacheMisses c' = cacheMisses c /\
  cacheDeletes c' = cacheDeletes c /\
  cacheSize c' = cacheSize c /\
  debugDataPublisher c' = debugDataPublisher c /\
  onStateChange c'
  = mkExports (MetricRelabelConfigs args) :: onStateChange c.
Proof.
  destruct c. unfold Update, clearCache, bindM, modify, retM.
  destruct (lru.New _) as [oc oe]. simpl. intros [= <-]. simpl.
  repeat split; reflexivity.
Qed.

(** X1. [New] succeeds exactly when the arguments pass [Validate], both
    services are there and the six collectors register; a capacity that
    is not positive fails it before anything else is looked at. *)
Theorem New_succeeds_iff o args :
  ((exists c, New o args = inl c) <->
   Validate args = None /\
   (exists p, GetServiceData_livedebugging o = inl p) /\
   (exists s, GetServiceData_labelstore o = inl s) /\
   (forall n, In n metricNames -> Register o n = None)) /\
  (CacheSize args <= 0 ->
   New o args = inr (ErrOther "must provide a positive size")).
Proof.
  unfold New, Validate, lru.New.
  destruct (CacheSize args <=? 0) eqn:E.
  - split; [|done]. split; [by intros [c [=]] | by intros [[=] _]].
  - apply Z.leb_gt in E. split; [|lia].
    destruct (GetServiceData_livedebugging o) as [p|e1].
    2:{ split; [by intros [c [=]] | by intros (_ & [p [=]] & _)]. }
    destruct (GetServiceData_labelstore o) as [s|e2].
    2:{ split; [by intros [c [=]] | by intros (_ & _ & [s [=]] & _)]. }
    destruct (registerAll (Register o) metricNames) as [e3|] eqn:ER.
    + split; [by intros [c [=]]|]. intros (_ & _ & _ & Hreg).
      apply (proj2 (registerAll_None _ _)) in Hreg. congruence.
    + pose proof (proj1 (registerAll_None _ _) ER) as Hreg.
      match goal with |- context [Update args ?c0] =>
        destruct (Update_spec args c0) as (c' & -> & _)
      end.
      split; [|by eauto]. intros _. eauto 10.
Qed.

(** The fields of the component that [New] returns. *)
Lemma New_state o args c :
  New o args = inl c ->
  cache c = Some (lru.mkCache (CacheSize args) []) /\
  mrc c = ComponentToPromRelabelConfigs (MetricRelabelConfigs args) /\
  fanout c = ForwardTo args /\
  opts_ID c = ID o /\
  exited c = false /\
  GetServiceData_labelstore o = inl (ls c) /\
  GetServiceData_livedebugging o = inl (debugDataPublisher c) /\
  metricsProcessed c = 0 /\ metricsOutgoing c = 0 /\
  cacheHits c = 0 /\ cacheMisses c = 0 /\
  cacheDeletes c = 0 /\ cacheSize c = 0 /\
  onStateChange c = [mkExports (MetricRelabelConfigs args);
                     mkExports (MetricRelabelConfigs args)].
Proof.
  intros HN. destruct (New_spec o args c HN)
    as (lc & Hsz & Hc & HNew & Hls & Hmrc & Hex & Hid).
  unfold lru.New in HNew.
  destruct (CacheSize args <=? 0); [done|]. injection HNew as <-.
  revert HN. unfold New, lru.New.
  destruct (CacheSize args <=? 0) eqn:E; [apply Z.leb_le in E; lia|].
  destruct (GetServiceData_livedebugging o) as [p|]; [|done].
  destruct (GetServiceData_labelstore o) as [s|]; [|done].
  destruct (registerAll _ _); [done|].
  match goal with |- context [Update args ?c0] =>
    destruct (Update_spec args c0) as (c' & HU & _ & _ & Hf & _);
    pose proof (Update_frame args c0 c' HU) as Hframe; rewrite HU
  end.
  intros [= <-]. simpl in Hframe.
  destruct Hframe as (-> & -> & -> & -> & -> & -> & -> & ->).
  rewrite Hf. done.
Qed.

(** X2. The component [New] returns: an empty cache of the configured
    capacity, the converted rules, the children to forward to, all
    counters at zero, not exited, the store and the publisher of the
    options, and the exports published twice, by [New] and by the
    [Update] it ends with. *)
Theorem New_component_state o args c :
  New o args = inl c ->
  cache c = Some (lru.mkCache (CacheSize args) []) /\
  mrc c = ComponentToPromRelabelConfigs (MetricRelabelConfigs args) /\
  fanout c = ForwardTo args /\
  opts_ID c = ID o /\
  exited c = false /\
  GetServiceData_labelstore o = inl (ls c) /\
  GetServiceData_livedebugging o = inl (debugDataPublisher c) /\
  metricsProcessed c = 0 /\ metricsOutgoing c = 0 /\
  cacheHits c = 0 /\ cacheMisses c = 0 /\
  cacheDeletes c = 0 /\ cacheSize c = 0 /\
  onStateChange c = [mkExports (MetricRelabelConfigs args);
                     mkExports (MetricRelabelConfigs args)].
Proof. exact (New_state o args c). Qed.

(** X3. In every reachable world, each processed label set was counted as a
    hit or as a miss, and no more deletes were counted than calls. *)
Theorem counters_add_up w :
  Reachable w ->
  metricsProcessed (comp w) = cacheHits (comp w) + cacheMisses (comp w) /\
  0 <= cacheHits (comp w) /\ 0 <= cacheMisses (comp w) /\
  0 <= cacheDeletes (comp w) <= metricsProcessed (comp w).
Proof.
  induction 1 as [o args s c m Hs Hwf HN | w w' HR IH Hstep].
  - destruct (New_state o args c HN)
      as (_ & _ & _ & _ & _ & _ & _ & Hp & _ & Hh & Hm & Hd & _).
    simpl. lia.
  - destruct Hstep as [w val lbls out w' Hrun | w args c' HV HU | w c' HRun | w
                      | w l | w m'].
    + destruct (Reachable_Inv w HR) as (lc & Hc & _).
      destruct (relabel_spec val lbls w lc Hc)
        as (out0 & w0 & Hrun0 & _ & _ & _ & _ & Hp & Hd & Hcase).
      rewrite Hrun in Hrun0. injection Hrun0 as <- <-.
      assert (cacheHits (comp w') + cacheMisses (comp w')
              = cacheHits (comp w) + cacheMisses (comp w) + 1 /\
              cacheHits (comp w) <= cacheHits (comp w') /\
              cacheMisses (comp w) <= cacheMisses (comp w')) as (? & ? & ?).
      { destruct (lru.Peek _ lc);
          destruct Hcase as (_ & _ & _ & -> & -> & _); lia. }
      destruct (IsStaleNaN val); lia.
    + destruct (Update_frame args (comp w) c' HU)
        as (Hp & _ & Hh & Hm & Hd & _). simpl. lia.
    + unfold Run, bindM, modify, retM in HRun. injection HRun as <-.
      destruct w as [c m]. by destruct c.
    + destruct w as [c m]. by destruct c.
    + destruct w as [c m]. by destruct c.
    + done.
Qed.

(** *** More on [relabel]: the store, the capacity, repeated calls *)

(** A call keeps every id of the label store and registers the label
    set it is called with. *)
Lemma relabel_store val lbls w out w' :
  relabel val lbls w = Some (out, w') ->
  (forall l r, ids (ls (comp w)) !! l = Some r ->
               ids (ls (comp w')) !! l = Some r) /\
  ids (ls (comp w')) !! deref (mem w) lbls
  = Some (refOf (deref (mem w) lbls) (ls (comp w))).
Proof.
  intros Hrun. destruct (cache (comp w)) as [lc|] eqn:Hc.
  2:{ by rewrite relabel_cache_without_list in Hrun. }
  destruct (relabel_spec val lbls w lc Hc)
    as (out0 & w0 & Hrun0 & _ & _ & _ & _ & _ & _ & Hcase).
  rewrite Hrun in Hrun0. injection Hrun0 as <- <-.
  assert (Hls : ls (comp w') = storeWith (deref (mem w) lbls) (ls (comp w)) \/
                exists l', ls (comp w')
                  = storeWith l' (storeWith (deref (mem w) lbls) (ls (comp w)))).
  { destruct (lru.Peek _ lc).
    - left. by destruct Hcase as (_ & _ & -> & _).
    - destruct Hcase as (_ & _ & -> & _). destruct (_.2); [right; eauto | by left]. }
  destruct Hls as [-> | [l' ->]]; split.
  - intros *. apply storeWith_mono.
  - apply storeWith_lookup.
  - intros * H. by apply storeWith_mono, storeWith_mono.
  - apply storeWith_mono, storeWith_lookup.
Qed.

(** For an allocated slice, the next call looks the same id up. *)
Lemma relabel_ref_stable val lbls w out w' :
  Reachable w -> is_Some (mem w !! lbls) ->
  relabel val lbls w = Some (out, w') ->
  refOf (deref (mem w') lbls) (ls (comp w'))
  = refOf (deref (mem w) lbls) (ls (comp w)).
Proof.
  intros HR Hl Hrun.
  destruct (relabel_input_frame val lbls w out w' HR Hl Hrun) as [-> _].
  destruct (relabel_store val lbls w out w' Hrun) as [_ Hid].
  unfold refOf at 1. by rewrite Hid.
Qed.

(** The cache a call leaves, by the cache it found. *)
Lemma relabel_cache val lbls w out w' :
  Reachable w ->
  relabel val lbls w = Some (out, w') ->
  let r := refOf (deref (mem w) lbls) (ls (comp w)) in
  exists lc e,
    cache (comp w) = Some lc /\ 0 < lru.size lc /\
    ((lru.Peek r lc = Some e /\
      cache (comp w') = Some (staleEvict val r (lru.Get r lc).2)) \/
     (lru.Peek r lc = None /\ lru.Peek r (lru.Add r e lc) = Some e /\
      cache (comp w') = Some (staleEvict val r (lru.Add r e lc)))).
Proof.
  intros HR Hrun r.
  destruct (Reachable_Inv w HR) as (lc0 & Hc0 & Hsz & _).
  destruct (relabel_reachable val lbls w HR)
    as (out0 & w0 & lc & lc' & Hrun0 & Hc & Hc' & _ & Hcase).
  rewrite Hrun in Hrun0. injection Hrun0 as <- <-.
  rewrite Hc0 in Hc. injection Hc as <-. fold r in Hcase.
  destruct (lru.Peek r lc0) as [e|] eqn:EP.
  - destruct Hcase as (_ & _ & _ & _ & ->). exists lc0, e.
    split; [done|]. split; [done|]. left. by rewrite Hc'.
  - destruct Hcase as (_ & _ & _ & _ & Hpeek & ->). eexists lc0, _.
    split; [done|]. split; [done|]. right. split; [done|].
    split; [exact Hpeek | by rewrite Hc'].
Qed.

Lemma Len_staleEvict_le val r (lc : lru.Cache (option labelAndID)) :
  lru.Len (staleEvict val r lc) <= lru.Len lc.
Proof.
  unfold staleEvict. destruct (IsStaleNaN val); [apply lru.Len_Remove_le | lia].
Qed.

Lemma Reachable_bounded w :
  Reachable w ->
  exists lc, cache (comp w) = Some lc /\ 0 < lru.size lc /\
             lru.Len lc <= lru.size lc.
Proof.
  induction 1 as [o args s c m Hs Hwf HN | w w' HR IH Hstep].
  - destruct (New_state o args c HN) as (Hc & _).
    destruct (New_spec o args c HN) as (_ & Hsz & _).
    eexists. split; [exact Hc|]. unfold lru.Len. simpl. lia.
  - destruct IH as (lc & Hc & Hsz & Hb).
    destruct Hstep as [w val lbls out w' Hrun | w args c' HV HU | w c' HRun | w
                      | w l | w m'].
    + destruct (relabel_cache val lbls w out w' HR Hrun)
        as (lc0 & e & Hc0 & _ & [[_ Hc'] | (_ & _ & Hc')]);
        rewrite Hc in Hc0; injection Hc0 as <-;
        eexists; (split; [exact Hc'|]); rewrite size_staleEvict.
      * rewrite lru.size_Get. split; [done|].
        pose proof (Len_staleEvict_le val
          (refOf (deref (mem w) lbls) (ls (comp w))) (lru.Get
          (refOf (deref (mem w) lbls) (ls (comp w))) lc).2).
        pose proof (lru.Len_Get_le
          (refOf (deref (mem w) lbls) (ls (comp w))) lc). lia.
      * rewrite lru.size_Add. split; [done|].
        pose proof (Len_staleEvict_le val
          (refOf (deref (mem w) lbls) (ls (comp w)))
          (lru.Add (refOf (deref (mem w) lbls) (ls (comp w))) e lc)).
        pose proof (lru.Len_Add_le
          (refOf (deref (mem w) lbls) (ls (comp w))) e lc Hb). lia.
    + destruct (Update_spec args (comp w)) as (c0 & HU0 & Hc0 & _).
      rewrite HU in HU0. injection HU0 as <-.
      unfold Validate in HV. unfold lru.New in Hc0.
      destruct (CacheSize args <=? 0) eqn:E; [done|]. apply Z.leb_gt in E.
      eexists. split; [exact Hc0|]. unfold lru.Len. simpl. lia.
    + unfold Run, bindM, modify, retM in HRun. injection HRun as <-.
      destruct w as [c m]. destruct c. simpl in *. eauto.
    + destruct w as [c m]. destruct c. simpl in *. eauto.
    + destruct w as [c m]. destruct c. simpl in *. eauto.
    + simpl. eauto.
Qed.

(** X4. The cache stays within its capacity.  In every reachable world the
    cache holds at most as many entries as its capacity, which [relabel]
    does not change; after a call the gauge is the number of entries, so
    it lies between 0 and the capacity, and it is at least 1 when the
    value was not stale. *)
Theorem cache_within_capacity val lbls w :
  Reachable w ->
  exists out w' lc lc',
    relabel val lbls w = Some (out, w') /\
    cache (comp w) = Some lc /\ cache (comp w') = Some lc' /\
    lru.Len lc <= lru.size lc /\
    lru.size lc' = lru.size lc /\
    cacheSize (comp w') = lru.Len lc' /\
    0 <= cacheSize (comp w') <= lru.size lc /\
    (IsStaleNaN val = false -> 1 <= cacheSize (comp w')).
Proof.
  intros HR. destruct (Reachable_bounded w HR) as (lc & Hc & Hsz & Hb).
  destruct (relabel_effects val lbls w lc Hc)
    as (out & w' & lc' & Hrun & Hc' & Hgauge & _).
  assert (HR' : Reachable w') by (eapply reach_step; [done | by econstructor]).
  destruct (Reachable_bounded w' HR') as (lc1 & Hc1 & _ & Hb').
  rewrite Hc' in Hc1. injection Hc1 as <-.
  exists out, w', lc, lc'. repeat (split; [done|]).
  destruct (relabel_cache val lbls w out w' HR Hrun)
    as (lc0 & e & Hc0 & _ & Hcase).
  rewrite Hc in Hc0. injection Hc0 as <-.
  assert (Hsize : lru.size lc' = lru.size lc).
  { destruct Hcase as [[_ Hc2] | (_ & _ & Hc2)];
      rewrite Hc' in Hc2; injection Hc2 as ->; rewrite size_staleEvict;
      [apply lru.size_Get | apply lru.size_Add]. }
  split; [done|]. split; [done|]. rewrite Hgauge.
  split; [pose proof (lru.Len_nonneg lc'); lia|].
  intros Hfresh. destruct Hcase as [[Hpeek Hc2] | (_ & _ & Hc2)];
    rewrite Hc' in Hc2; injection Hc2 as ->; unfold staleEvict; rewrite Hfresh.
  - by eapply lru.Len_Get_pos.
  - by apply lru.Len_Add_pos.
Qed.

(** X5. A repeated call is a hit.  After a call for an allocated slice with a
    value that is not stale, the next call for the same slice, stale or
    not, finds the entry: it returns the same labels, counts a hit and no
    miss, and allocates nothing. *)
Theorem repeated_call_hits val lbls w :
  Reachable w ->
  is_Some (mem w !! lbls) ->
  IsStaleNaN val = false ->
  exists out w',
    relabel val lbls w = Some (out, w') /\
    forall val2, exists w2,
      relabel val2 lbls w' = Some (out, w2) /\
      cacheHits (comp w2) = cacheHits (comp w') + 1 /\
      cacheMisses (comp w2) = cacheMisses (comp w') /\
      mem w2 = mem w'.
Proof.
  intros HR Hl Hfresh.
  destruct (relabel_reachable val lbls w HR)
    as (out & w' & lc & lc' & Hrun & Hc & Hc' & Hout & _).
  exists out, w'. split; [done|]. intros val2.
  assert (HR' : Reachable w') by (eapply reach_step; [done | by econstructor]).
  destruct (relabel_cache val lbls w out w' HR Hrun)
    as (lc0 & e & _ & _ & Hcase).
  assert (Hpeek : is_Some (lru.Peek (refOf (deref (mem w) lbls) (ls (comp w))) lc')).
  { destruct Hcase as [[Hp Hc2] | (_ & Hp & Hc2)];
      rewrite Hc' in Hc2; injection Hc2 as ->; unfold staleEvict;
      rewrite Hfresh.
    - rewrite lru.Peek_Get. eauto.
    - eauto. }
  destruct Hpeek as [e' Hpeek].
  destruct (relabel_reachable val2 lbls w' HR')
    as (out2 & w2 & lc1 & lc2 & Hrun2 & Hc1 & _ & Hout2 & Hcase2).
  rewrite Hc' in Hc1. injection Hc1 as <-.
  rewrite (relabel_ref_stable val lbls w out w' HR Hl Hrun), Hpeek in Hcase2.
  destruct Hcase2 as (_ & Hh & Hm & Hmem & _).
  destruct (relabel_input_frame val lbls w out w' HR Hl Hrun) as [Hcont _].
  destruct (relabel_spec val lbls w lc Hc) as (o0 & w0 & Hrun0 & Hmrc & _).
  rewrite Hrun in Hrun0. injection Hrun0 as <- <-.
  exists w2. split; [|done]. rewrite Hrun2. do 2 f_equal.
  rewrite Hout2, Hout, Hcont, Hmrc. done.
Qed.

(** X6. [Update] starts afresh.  After an [Update] with validated arguments
    the first call for any slice is a miss, whatever was cached before,
    and it returns what the new rules make of the label set. *)
Theorem update_then_miss args w :
  Reachable w ->
  Validate args = None ->
  exists c',
    Update args (comp w) = Some (None, c') /\
    forall val lbls, exists out w',
      relabel val lbls (mkWorld c' (mem w)) = Some (out, w') /\
      out = (ProcessLabels (deref (mem w) lbls)
               (ComponentToPromRelabelConfigs (MetricRelabelConfigs args))).1 /\
      cacheMisses (comp w') = cacheMisses (comp w) + 1 /\
      cacheHits (comp w') = cacheHits (comp w).
Proof.
  intros HR HV.
  destruct (Update_spec args (comp w))
    as (c' & HU & Hc & Hmrc & _ & _ & _ & _ & Hh & Hm).
  exists c'. split; [done|]. intros val lbls.
  assert (HR' : Reachable (mkWorld c' (mem w))).
  { eapply reach_step; [done | by econstructor]. }
  destruct (relabel_reachable val lbls _ HR')
    as (out & w' & lc & lc' & Hrun & Hc1 & _ & Hout & Hcase).
  simpl in *. rewrite Hc in Hc1. unfold lru.New in Hc1.
  destruct (CacheSize args <=? 0); [done|]. injection Hc1 as <-.
  unfold lru.Peek in Hcase. simpl in Hcase.
  destruct Hcase as (Hm' & Hh' & _).
  exists out, w'. split; [done|]. rewrite Hout, Hmrc, Hm', Hh', Hh, Hm. done.
Qed.

(** X7. The live debugging record.  A call for an allocated slice publishes
    one record when the publisher is active, and none otherwise: the
    record carries the component id, the labels that came in, the labels
    returned, and the count 0 when these are empty and 1 otherwise. *)
Theorem debug_record_published val lbls w :
  Reachable w ->
  is_Some (mem w !! lbls) ->
  exists out w',
    relabel val lbls w = Some (out, w') /\
    let p := debugDataPublisher (comp w) in
    debugDataPublisher (comp w')
    = if active p then
        mkPublisher true
          (mkData (opts_ID (comp w)) (if IsEmpty out then 0 else 1)
             (deref (mem w) lbls) out :: published p)
      else p.
Proof.
  intros HR Hl. destruct (Reachable_Inv w HR) as (lc & Hc & _).
  destruct (relabel_effects val lbls w lc Hc)
    as (out & w' & lc' & Hrun & _ & _ & _ & _ & Hpub).
  exists out, w'. split; [done|]. simpl. rewrite Hpub.
  destruct (relabel_input_frame val lbls w out w' HR Hl Hrun) as [-> _].
  unfold PublishIfActive. by destruct (active _) eqn:E.
Qed.

(** X8. Labels that are not empty are forwarded.  On a running component,
    when the relabelled set is not empty, each hook calls the matching
    method of the next appender once, with the series ref 0, the
    relabelled labels and what it was given, and returns what that call
    returns, an error included; only the hook for samples counts an
    outgoing metric. *)
Theorem nonempty_labels_forwarded val lbls w :
  Reachable w ->
  exited (comp w) = false ->
  exists out w' w0',
    relabel val lbls w = Some (out, w') /\
    relabel 0 lbls w = Some (out, w0') /\
    metricsOutgoing (comp w') = metricsOutgoing (comp w) /\
    metricsOutgoing (comp w0') = metricsOutgoing (comp w) /\
    metricsOutgoing (comp (countOutgoing w')) = metricsOutgoing (comp w) + 1 /\
    (IsEmpty out = false ->
     forall D ref t e m h fh (next : Appender D) d,
       appendHook ref lbls t val next (w, d)
       = Some ((Append next 0 out t val d).1,
               (countOutgoing w', (Append next 0 out t val d).2)) /\
       exemplarHook ref lbls e next (w, d)
       = Some ((AppendExemplar next 0 out e d).1,
               (w0', (AppendExemplar next 0 out e d).2)) /\
       metadataHook ref lbls m next (w, d)
       = Some ((UpdateMetadata next 0 out m d).1,
               (w0', (UpdateMetadata next 0 out m d).2)) /\
       histogramHook ref lbls t h fh next (w, d)
       = Some ((AppendHistogram next 0 out t h fh d).1,
               (w0', (AppendHistogram next 0 out t h fh d).2))).
Proof.
  intros HR Hex. destruct (Reachable_Inv w HR) as (lc & Hc & _).
  destruct (relabel_reachable val lbls w HR)
    as (out & w' & lc1 & lc' & Hrun & _ & _ & Hout & _).
  destruct (relabel_reachable 0 lbls w HR)
    as (out0 & w0' & lc0 & lc0' & Hrun0 & _ & _ & Hout0 & _).
  assert (out0 = out) as -> by congruence.
  destruct (relabel_spec val lbls w lc Hc) as (o1 & w1 & Hr1 & _ & _ & _ & Hmo & _).
  rewrite Hrun in Hr1. injection Hr1 as <- <-.
  destruct (relabel_spec 0 lbls w lc Hc) as (o2 & w2 & Hr2 & _ & _ & _ & Hmo0 & _).
  rewrite Hrun0 in Hr2. injection Hr2 as <- <-.
  exists out, w', w0'. repeat (split; [done|]). split.
  - rewrite <- Hmo. destruct w' as [c' m']. by destruct c'.
  - intros Hne D ref t e m h fh next d.
    rewrite (appendHook_run ref lbls t val next w d out w' Hex Hrun).
    rewrite (exemplarHook_run ref lbls e next w d out w0' Hex Hrun0).
    rewrite (metadataHook_run ref lbls m next w d out w0' Hex Hrun0).
    rewrite (histogramHook_run ref lbls t h fh next w d out w0' Hex Hrun0).
    by rewrite Hne.
Qed.

(** X9. Exemplars, metadata and histograms never evict.  Their hooks call
    [relabel] with the value 0, which is not the stale marker: on a
    running component the call counts no delete and leaves the entry of
    the label set in the cache, whatever the exemplar, the metadata or
    the histogram carries. *)
Theorem zero_value_keeps_entry lbls w :
  Reachable w ->
  is_Some (mem w !! lbls) ->
  exited (comp w) = false ->
  let r := refOf (deref (mem w) lbls) (ls (comp w)) in
  exists out w',
    relabel 0 lbls w = Some (out, w') /\
    cacheDeletes (comp w') = cacheDeletes (comp w) /\
    is_Some (cachePeek r w') /\
    forall D ref t e m h fh (next : Appender D) d,
      (exists res d', exemplarHook ref lbls e next (w, d)
                      = Some (res, (w', d'))) /\
      (exists res d', metadataHook ref lbls m next (w, d)
                      = Some (res, (w', d'))) /\
      (exists res d', histogramHook ref lbls t h fh next (w, d)
                      = Some (res, (w', d'))).
Proof.
  intros HR Hl Hex r. destruct (Reachable_Inv w HR) as (lc & Hc & _).
  destruct (relabel_spec 0 lbls w lc Hc)
    as (out & w' & Hrun & _ & _ & _ & _ & _ & Hdel & _).
  change (IsStaleNaN 0) with false in Hdel.
  exists out, w'. split; [done|]. split; [done|]. split.
  - subst r. destruct (relabel_cache 0 lbls w out w' HR Hrun)
      as (lc0 & e & _ & _ & [[Hp Hc'] | (_ & Hp & Hc')]);
      unfold cachePeek; rewrite Hc'; unfold staleEvict;
      change (IsStaleNaN 0) with false; cbv iota.
    + rewrite lru.Peek_Get, Hp. eauto.
    + rewrite Hp. eauto.
  - intros D ref t e m h fh next d.
    rewrite (exemplarHook_run ref lbls e next w d out w' Hex Hrun).
    rewrite (metadataHook_run ref lbls m next w d out w' Hex Hrun).
    rewrite (histogramHook_run ref lbls t h fh next w d out w' Hex Hrun).
    destruct (IsEmpty out); eauto 10.
Qed.

(** X10. An [Update] that was not validated.  With a capacity that is not
    positive, which [Validate] rejects, [Update] still returns a nil
    error and stores the cache [lru.New] returns beside its error, a
    cache whose list is nil.  In the state [Update] leaves, whatever the
    store of label slices holds, a call of [relabel] panics, and so does
    a call of each of the four hooks if the component has not exited. *)
Theorem unvalidated_update_panics args c :
  CacheSize args <= 0 ->
  exists c',
    Update args c = Some (None, c') /\
    is_Some (Validate args) /\
    cache c' = None /\
    forall m val lbls,
      relabel val lbls (mkWorld c' m) = None /\
      (exited c = false ->
       forall D ref t e md h fh (next : Appender D) d,
         appendHook ref lbls t val next (mkWorld c' m, d) = None /\
         exemplarHook ref lbls e next (mkWorld c' m, d) = None /\
         metadataHook ref lbls md next (mkWorld c' m, d) = None /\
         histogramHook ref lbls t h fh next (mkWorld c' m, d) = None).
Proof.
  intros Hsz.
  destruct (Update_spec args c) as (c' & HU & Hc & _ & _ & _ & Hex & _).
  exists c'. split; [done|].
  assert (Hle : (CacheSize args <=? 0) = true) by by apply Z.leb_le.
  split; [unfold Validate; rewrite Hle; eauto|].
  assert (Hnil : cache c' = None).
  { rewrite Hc. unfold lru.New. by rewrite Hle. }
  split; [done|]. intros m val lbls.
  assert (Hp : forall v, relabel v lbls (mkWorld c' m) = None).
  { intros v. by apply relabel_cache_without_list. }
  split; [apply Hp|]. intros Hrun D ref t e md h fh next d.
  unfold appendHook, exemplarHook, metadataHook, histogramHook,
    bindM, inWorld, gets.
  cbn [fst snd comp]. rewrite Hex, Hrun. cbn [fst snd].
  by rewrite !Hp.
Qed.

Lemma relabel_mrc val lbls w out w' :
  relabel val lbls w = Some (out, w') -> mrc (comp w') = mrc (comp w).
Proof.
  intros Hrun. destruct (cache (comp w)) as [lc|] eqn:Hc.
  - destruct (relabel_spec val lbls w lc Hc) as (o0 & w0 & Hrun0 & Hmrc & _).
    rewrite Hrun in Hrun0. by injection Hrun0 as <- <-.
  - by rewrite relabel_cache_without_list in Hrun.
Qed.

(** After a call with a value that is not stale, the entry of the label
    set is at the front of the cache. *)
Lemma relabel_front val lbls w out w' :
  Reachable w -> IsStaleNaN val = false ->
  relabel val lbls w = Some (out, w') ->
  exists lc lc' e rest,
    cache (comp w) = Some lc /\ cache (comp w') = Some lc' /\
    lru.size lc' = lru.size lc /\
    lru.items lc' = (refOf (deref (mem w) lbls) (ls (comp w)), e) :: rest.
Proof.
  intros HR Hfresh Hrun.
  destruct (relabel_cache val lbls w out w' HR Hrun)
    as (lc & e & Hc & Hsz & [[Hp Hc'] | (_ & Hp & Hc')]);
    unfold staleEvict in Hc'; rewrite Hfresh in Hc'.
  - exists lc, (lru.Get (refOf (deref (mem w) lbls) (ls (comp w))) lc).2, e.
    eexists. split; [done|]. split; [done|]. split; [apply lru.size_Get|].
    by apply lru.items_Get_hit.
  - destruct (lru.items_Add_head
                (refOf (deref (mem w) lbls) (ls (comp w))) e lc Hsz) as [rest Hi].
    exists lc, (lru.Add (refOf (deref (mem w) lbls) (ls (comp w))) e lc), e, rest.
    split; [done|]. split; [done|]. split; [apply lru.size_Add | done].
Qed.

(** X11. The entry used last is not the one evicted.  With a capacity of at
    least 2, after a call for one label set with a value that is not
    stale and a call for another label set, whatever its value and
    whether it hits or misses, a further call for the first label set is
    still a hit and returns the same labels. *)
Theorem recent_entry_survives val1 val2 lbls1 lbls2 w lc :
  Reachable w ->
  cache (comp w) = Some lc -> 2 <= lru.size lc ->
  is_Some (mem w !! lbls1) -> is_Some (mem w !! lbls2) ->
  deref (mem w) lbls1 <> deref (mem w) lbls2 ->
  IsStaleNaN val1 = false ->
  exists out1 w1 out2 w2,
    relabel val1 lbls1 w = Some (out1, w1) /\
    relabel val2 lbls2 w1 = Some (out2, w2) /\
    forall val3, exists w3,
      relabel val3 lbls1 w2 = Some (out1, w3) /\
      cacheHits (comp w3) = cacheHits (comp w2) + 1 /\
      cacheMisses (comp w3) = cacheMisses (comp w2).
Proof.
  intros HR Hc Hsz Hl1 Hl2 Hne Hfresh.
  set (c1 := deref (mem w) lbls1) in *. set (c2 := deref (mem w) lbls2) in *.
  set (r1 := refOf c1 (ls (comp w))).
  (* the first call *)
  destruct (relabel_reachable val1 lbls1 w HR)
    as (out1 & w1 & lc0 & lc1 & Hrun1 & _ & Hc1 & Hout1 & _).
  assert (HR1 : Reachable w1) by (eapply reach_step; [done | by econstructor]).
  destruct (relabel_front val1 lbls1 w out1 w1 HR Hfresh Hrun1)
    as (lc' & lc1' & e1 & rest & Hc' & Hc1' & Hsz1 & Hitems).
  rewrite Hc in Hc'. injection Hc' as <-.
  rewrite Hc1 in Hc1'. injection Hc1' as <-. fold c1 r1 in Hitems.
  destruct (relabel_input_frame val1 lbls1 w out1 w1 HR Hl1 Hrun1)
    as [Hcont1 Hframe1].
  destruct (relabel_store val1 lbls1 w out1 w1 Hrun1) as [_ Hid1].
  fold c1 r1 in Hid1.
  (* the second call looks another id up *)
  destruct (relabel_reachable val2 lbls2 w1 HR1)
    as (out2 & w2 & lc1' & lc2 & Hrun2 & Hc1' & Hc2 & _ & _).
  rewrite Hc1 in Hc1'. injection Hc1' as <-.
  assert (HR2 : Reachable w2) by (eapply reach_step; [done | by econstructor]).
  assert (Hl1' : is_Some (mem w1 !! lbls1)) by by rewrite Hframe1.
  assert (Hl2' : is_Some (mem w1 !! lbls2)) by by rewrite Hframe1.
  assert (Hc2eq : deref (mem w1) lbls2 = c2).
  { unfold deref. by rewrite Hframe1. }
  set (r2 := refOf (deref (mem w1) lbls2) (ls (comp w1))).
  assert (Hr : r1 <> r2).
  { intros Heq. apply Hne. destruct (Reachable_Inv w1 HR1) as (? & _ & _ & Hwf & _).
    apply (refOf_inj c1 c2 (ls (comp w1)) Hwf).
    rewrite Hid1. f_equal. subst r2. by rewrite Hc2eq in Heq. }
  assert (Hpeek : lru.Peek r1 lc2 = Some e1).
  { destruct (relabel_cache val2 lbls2 w1 out2 w2 HR1 Hrun2)
      as (lc1' & e2 & Hc1' & _ & Hcase).
    rewrite Hc1 in Hc1'. injection Hc1' as <-. fold r2 in Hcase.
    assert (Hstale : forall lcx, lru.Peek r1 lcx = Some e1 ->
              lru.Peek r1 (staleEvict val2 r2 lcx) = Some e1).
    { intros lcx Hx. unfold staleEvict. destruct (IsStaleNaN val2); [|done].
      rewrite lru.Peek_Remove_ne; [done | congruence]. }
    destruct Hcase as [[_ Hc2'] | (_ & _ & Hc2')];
      rewrite Hc2 in Hc2'; injection Hc2' as ->; apply Hstale.
    - rewrite lru.Peek_Get. by eapply lru.Peek_head.
    - eapply lru.Peek_head_Add; [done | lia | done]. }
  (* the third call looks the first id up again *)
  destruct (relabel_input_frame val2 lbls2 w1 out2 w2 HR1 Hl2' Hrun2)
    as [_ Hframe2].
  destruct (relabel_store val2 lbls2 w1 out2 w2 Hrun2) as [Hmono2 _].
  assert (Hcont : deref (mem w2) lbls1 = c1).
  { unfold deref. rewrite Hframe2, Hframe1; done. }
  assert (Href : refOf (deref (mem w2) lbls1) (ls (comp w2)) = r1).
  { rewrite Hcont. unfold refOf. by rewrite (Hmono2 c1 r1 Hid1). }
  exists out1, w1, out2, w2. split; [done|]. split; [done|]. intros val3.
  destruct (relabel_reachable val3 lbls1 w2 HR2)
    as (out3 & w3 & lc2' & lc3 & Hrun3 & Hc2' & _ & Hout3 & Hcase3).
  rewrite Hc2 in Hc2'. injection Hc2' as <-.
  rewrite Href, Hpeek in Hcase3. destruct Hcase3 as (_ & Hh & Hm & _).
  exists w3. split; [|done]. rewrite Hrun3. do 2 f_equal.
  rewrite Hout3, Hout1, Hcont.
  rewrite (relabel_mrc val2 lbls2 w1 out2 w2 Hrun2).
  rewrite (relabel_mrc val1 lbls1 w out1 w1 Hrun1). done.
Qed.

End Hooks.

End Component.

End Relabel.

(** ** A small instance of the relabel component

    Two kinds of rules stand for the rule engine: a series is dropped
    when it carries a given label with a given value, and a label is
    removed by name.  The engine works in place: it leaves its result, or
    nothing, in the slice it was handed. *)

Module RelabelDemo.
Import Relabel.

Inductive Rule : Type :=
  | DropEq (name value : string)
  | LabelDrop (name : string).

Definition hasLabel (name value : string) (l : Labels) : bool :=
  existsb (fun p => String.eqb p.1 name && String.eqb p.2 value) l.

Fixpoint applyRules (l : Labels) (cfgs : list Rule)
  : option (list (string * string)) :=
  match cfgs with
  | [] => Some l
  | DropEq n v :: cfgs' =>
      if hasLabel n v l then None else applyRules l cfgs'
  | LabelDrop n :: cfgs' =>
      applyRules (List.filter (fun p => negb (String.eqb p.1 n)) l) cfgs'
  end.

Definition ProcessBuilder (l : Labels) (cfgs : list Rule) : Outcome :=
  mkOutcome (default [] (applyRules l cfgs)) (applyRules l cfgs).

Definition opts : Options :=
  mkOptions "prometheus.relabel.demo"
    (inl (mkPublisher true [])) (inl NewLabelStore) (fun _ => None).

Definition args : Arguments Rule string :=
  mkArguments Rule string ["remote_write"] [DropEq "job" "ignored"] 100.

Definition ignored : Labels := [("inst", "x"); ("job", "ignored")].
Definition kept : Labels := [("inst", "x"); ("job", "keep")].

Definition memory : gmap positive (list (string * string)) :=
  <[1%positive := ignored]> (<[2%positive := kept]> ∅).

(** The component that [New] builds, the world it starts in, and the
    calls of the module at this instance. *)
Definition component : Component Rule Rule string :=
  mkComponent Rule Rule string "prometheus.relabel.demo"
    [DropEq "job" "ignored"] 0 0 0 0 0 0 ["remote_write"] false
    NewLabelStore (mkPublisher true []) (Some (lru.mkCache 100 []))
    [mkExports Rule [DropEq "job" "ignored"];
     mkExports Rule [DropEq "job" "ignored"]].

Definition world : World Rule Rule string :=
  mkWorld Rule Rule string component memory.

Definition relabel := Relabel.relabel Rule Rule string ProcessBuilder.
Definition Reachable :=
  Relabel.Reachable Rule Rule (fun x => x) string ProcessBuilder.
Definition step := Relabel.step Rule Rule (fun x => x) string ProcessBuilder.

(** The next appender records what it is sent and answers with the
    series ref 7 and no error. *)
Definition next : Appender unit unit unit unit (list (Sent unit unit unit unit)) :=
  recorder unit unit unit unit (fun _ => (7, None)).

Lemma New_component :
  New Rule Rule (fun x => x) string opts args = inl component.
Proof. reflexivity. Qed.

Lemma world_reachable : Reachable world.
Proof.
  apply (reach_New Rule Rule (fun x => x) string ProcessBuilder
           opts args NewLabelStore component memory).
  - reflexivity.
  - apply NewLabelStore_wf.
  - exact New_component.
Qed.

(** Scenario: the rule drops job="ignored".  The ignored series gives no
    output, the kept one passes unchanged; repeating them costs no
    further miss; the stale marker for the kept series is still
    relabelled, and the sample after it is a miss again. *)
Example drop_and_keep :
  let calls :=
    let* a := relabel 0 1%positive in
    let* b := relabel 0 2%positive in
    let* c := relabel 0 1%positive in
    let* d := relabel 0 2%positive in
    let* e := relabel StaleNaN 2%positive in
    let* f := relabel 0 2%positive in
    retM [a; b; c; d; e; f] in
  match calls world with
  | Some (outs, w) =>
      outs = [[]; kept; []; kept; kept; kept] /\
      cacheMisses _ _ _ (comp _ _ _ w) = 3 /\
      cacheHits _ _ _ (comp _ _ _ w) = 3 /\
      cacheDeletes _ _ _ (comp _ _ _ w) = 1 /\
      mem _ _ _ w !! 1%positive = Some ignored /\
      mem _ _ _ w !! 2%positive = Some kept
  | None => False
  end.
Proof. vm_compute. repeat split; reflexivity. Qed.

Lemma cache_correctness_witness :
  Reachable world /\
  (exists out w', relabel 0 2%positive world = Some (out, w') /\ out = kept) /\
  (exists outs w',
     relabelAll Rule Rule string ProcessBuilder
       [(0, 1%positive); (0, 2%positive); (0, 1%positive); (StaleNaN, 2%positive)]
       world = Some (outs, w') /\
     outs = [[]; kept; []; kept]).
Proof.
  split; [exact world_reachable|].
  destruct (cache_correctness Rule Rule (fun x => x) string ProcessBuilder
              world world_reachable) as [Hcall Hcalls].
  split.
  - destruct (Hcall 0 2%positive)
      as (out & w' & lc & lc' & Hrun & _ & _ & Hout & _).
    exists out, w'. split; [exact Hrun|]. rewrite Hout. reflexivity.
  - destruct (Hcalls [(0, 1%positive); (0, 2%positive); (0, 1%positive);
                      (StaleNaN, 2%positive)])
      as (outs & w' & Hrun & Houts).
    + intros c Hc. simpl in Hc.
      destruct Hc as [<-|[<-|[<-|[<-|[]]]]]; simpl; eauto.
    + exists outs, w'. split; [exact Hrun|]. rewrite Houts. reflexivity.
Defined.

Lemma relabel_input_unchanged_witness :
  Reachable world /\ is_Some (memory !! 1%positive) /\
  exists out w', relabel 0 1%positive world = Some (out, w') /\
    mem _ _ _ w' !! 1%positive = Some ignored.
Proof.
  split; [exact world_reachable|].
  assert (Hl : is_Some (memory !! 1%positive)) by (exists ignored; reflexivity).
  split; [exact Hl|].
  destruct (relabel_input_unchanged Rule Rule (fun x => x) string
              ProcessBuilder 0 1%positive world world_reachable Hl)
    as (out & w' & Hrun & Hsame & _).
  exists out, w'. split; [exact Hrun|]. rewrite Hsame. reflexivity.
Defined.


Lemma empty_labels_not_forwarded_witness :
  Reachable world /\ exited _ _ _ component = false /\
  exists w',
    appendHook Rule Rule string ProcessBuilder unit unit unit unit
      0 1%positive 1000 42 next (world, [])
    = Some ((0, None), (w', [])).
Proof.
  split; [exact world_reachable|]. split; [reflexivity|].
  destruct (empty_labels_not_forwarded Rule Rule (fun x => x) string
              ProcessBuilder unit unit unit unit
              42 1%positive world world_reachable eq_refl)
    as (out & w' & w0' & _ & _ & Hdrop & Hhooks).
  exists w'.
  exact (proj1 (Hhooks (Hdrop eq_refl) _ 0 1000 tt tt None None next [])).
Defined.

Lemma exited_rejects_appends_witness :
  exists c' w2,
    Run Rule Rule string component = Some (None, c') /\
    rtc step (mkWorld Rule Rule string c' memory) w2 /\
    cacheMisses _ _ _ (comp _ _ _ w2) = 1 /\
    appendHook Rule Rule string ProcessBuilder unit unit unit unit
      0 2%positive 1000 42 next (w2, [])
    = Some ((0, Some (ErrExited "prometheus.relabel.demo")), (w2, [])).
Proof.
  destruct (exited_rejects_appends Rule Rule (fun x => x) string
              ProcessBuilder unit unit unit unit world)
    as (c' & HRun & Hafter).
  assert (exists w2, rtc step (mkWorld Rule Rule string c' memory) w2 /\
            cacheMisses _ _ _ (comp _ _ _ w2) = 1) as (w2 & Hsteps & Hm).
  { injection HRun as <-. eexists. split.
    - apply rtc_once.
      eapply (step_relabel Rule Rule (fun x => x) string ProcessBuilder
                _ 0 2%positive).
      vm_compute. reflexivity.
    - reflexivity. }
  exists c', w2. split; [exact HRun|]. split; [exact Hsteps|].
  split; [exact Hm|].
  exact (proj1 (Hafter w2 Hsteps _ 0 2%positive 1000 42 tt tt None None next [])).
Defined.

Lemma New_component_state_witness :
  New Rule Rule (fun x => x) string opts args = inl component /\
  cache _ _ _ component = Some (lru.mkCache 100 []) /\
  mrc _ _ _ component = [DropEq "job" "ignored"].
Proof.
  split; [exact New_component|].
  destruct (New_component_state Rule Rule (fun x => x) string
              opts args component New_component) as (Hc & Hm & _).
  split; [exact Hc | exact Hm].
Defined.

(** The world after the two series were relabelled once each. *)
Definition warm : option (World Rule Rule string) :=
  match (let* _ := relabel 0 1%positive in relabel 0 2%positive) world with
  | Some (_, w) => Some w
  | None => None
  end.

Lemma counters_add_up_witness :
  exists w, warm = Some w /\ Reachable w /\
    metricsProcessed _ _ _ (comp _ _ _ w) = 2 /\
    cacheHits _ _ _ (comp _ _ _ w) + cacheMisses _ _ _ (comp _ _ _ w) = 2.
Proof.
  destruct (relabel 0 1%positive world) as [[o1 w1]|] eqn:E1; [|discriminate].
  destruct (relabel 0 2%positive w1) as [[o2 w2]|] eqn:E2.
  2:{ injection E1 as <- <-. discriminate. }
  assert (HR : Reachable w2).
  { eapply reach_step; [eapply reach_step; [exact world_reachable|]|].
    - exact (step_relabel Rule Rule (fun x => x) string ProcessBuilder
               world 0 1%positive o1 w1 E1).
    - exact (step_relabel Rule Rule (fun x => x) string ProcessBuilder
               w1 0 2%positive o2 w2 E2). }
  exists w2. split.
  - unfold warm, bindM. rewrite E1, E2. reflexivity.
  - split; [exact HR|].
    destruct (counters_add_up Rule Rule (fun x => x) string ProcessBuilder
                w2 HR) as (Hsum & _).
    assert (Hp : metricsProcessed _ _ _ (comp _ _ _ w2) = 2).
    { injection E1 as <- <-. injection E2 as <- <-. reflexivity. }
    split; [exact Hp|]. rewrite <- Hsum. exact Hp.
Defined.

Lemma cache_within_capacity_witness :
  Reachable world /\
  exists out w',
    relabel 0 2%positive world = Some (out, w') /\
    1 <= cacheSize _ _ _ (comp _ _ _ w') <= 100.
Proof.
  split; [exact world_reachable|].
  destruct (cache_within_capacity Rule Rule (fun x => x) string ProcessBuilder
              0 2%positive world world_reachable)
    as (out & w' & lc & lc' & Hrun & Hc & _ & _ & _ & _ & [_ Hle] & Hge).
  exists out, w'. split; [exact Hrun|]. injection Hc as <-.
  split; [exact (Hge eq_refl) | exact Hle].
Defined.

Lemma repeated_call_hits_witness :
  Reachable world /\ is_Some (memory !! 1%positive) /\
  IsStaleNaN 0 = false /\
  exists out w' w2,
    relabel 0 1%positive world = Some (out, w') /\
    relabel StaleNaN 1%positive w' = Some (out, w2) /\
    cacheHits _ _ _ (comp _ _ _ w2) = 1.
Proof.
  split; [exact world_reachable|].
  assert (Hl : is_Some (memory !! 1%positive)) by (exists ignored; reflexivity).
  split; [exact Hl|]. split; [reflexivity|].
  destruct (repeated_call_hits Rule Rule (fun x => x) string ProcessBuilder
              0 1%positive world world_reachable Hl eq_refl)
    as (out & w' & Hrun & Hnext).
  destruct (Hnext StaleNaN) as (w2 & Hrun2 & Hh & _).
  exists out, w', w2. split; [exact Hrun|]. split; [exact Hrun2|].
  rewrite Hh. injection Hrun as _ <-. reflexivity.
Defined.

(** New arguments: the ignored job is kept, its instance label removed. *)
Definition args2 : Arguments Rule string :=
  mkArguments Rule string ["remote_write"] [LabelDrop "inst"] 10.

Lemma update_then_miss_witness :
  Reachable world /\ Validate Rule string args2 = None /\
  exists c' out w',
    Update Rule Rule (fun x => x) string args2 component = Some (None, c') /\
    relabel 0 1%positive (mkWorld Rule Rule string c' memory) = Some (out, w') /\
    out = [("job", "ignored")] /\
    cacheMisses _ _ _ (comp _ _ _ w') = 1.
Proof.
  split; [exact world_reachable|]. split; [reflexivity|].
  destruct (update_then_miss Rule Rule (fun x => x) string ProcessBuilder
              args2 world world_reachable eq_refl) as (c' & HU & Hcalls).
  destruct (Hcalls 0 1%positive) as (out & w' & Hrun & Hout & Hm & _).
  exists c', out, w'. split; [exact HU|]. split; [exact Hrun|].
  split; [rewrite Hout; reflexivity | rewrite Hm; reflexivity].
Defined.

Lemma debug_record_published_witness :
  Reachable world /\ is_Some (memory !! 1%positive) /\
  exists out w',
    relabel 0 1%positive world = Some (out, w') /\
    published (debugDataPublisher _ _ _ (comp _ _ _ w'))
    = [mkData "prometheus.relabel.demo" 0 ignored []].
Proof.
  split; [exact world_reachable|].
  assert (Hl : is_Some (memory !! 1%positive)) by (exists ignored; reflexivity).
  split; [exact Hl|].
  destruct (debug_record_published Rule Rule (fun x => x) string ProcessBuilder
              0 1%positive world world_reachable Hl) as (out & w' & Hrun & Hpub).
  exists out, w'. split; [exact Hrun|]. simpl in Hpub. rewrite Hpub.
  injection Hrun as <- _. reflexivity.
Defined.

Lemma nonempty_labels_forwarded_witness :
  Reachable world /\ exited _ _ _ component = false /\
  exists w',
    appendHook Rule Rule string ProcessBuilder unit unit unit unit
      0 2%positive 1000 42 next (world, [])
    = Some ((7, None),
            (w', [SentAppend unit unit unit unit 0 kept 1000 42])) /\
    metricsOutgoing _ _ _ (comp _ _ _ w') = 1.
Proof.
  split; [exact world_reachable|]. split; [reflexivity|].
  destruct (nonempty_labels_forwarded Rule Rule (fun x => x) string
              ProcessBuilder unit unit unit unit
              42 2%positive world world_reachable eq_refl)
    as (out & w' & w0' & Hrun & _ & _ & _ & Hcount & Hhooks).
  assert (Hout : out = kept) by (injection Hrun as <- _; reflexivity).
  assert (Hne : IsEmpty out = false) by (rewrite Hout; reflexivity).
  exists (countOutgoing Rule Rule string w'). split.
  - rewrite (proj1 (Hhooks Hne _ 0 1000 tt tt None None next [])).
    rewrite Hout. reflexivity.
  - rewrite Hcount. reflexivity.
Defined.

Lemma zero_value_keeps_entry_witness :
  Reachable world /\ is_Some (memory !! 2%positive) /\
  exited _ _ _ component = false /\
  exists res w' d',
    histogramHook Rule Rule string ProcessBuilder unit unit unit unit
      0 2%positive 1000 None None next (world, []) = Some (res, (w', d')) /\
    cacheDeletes _ _ _ (comp _ _ _ w') = 0 /\
    is_Some (cachePeek _ _ _ 1 w').
Proof.
  split; [exact world_reachable|].
  assert (Hl : is_Some (memory !! 2%positive)) by (exists kept; reflexivity).
  split; [exact Hl|]. split; [reflexivity|].
  destruct (zero_value_keeps_entry Rule Rule (fun x => x) string ProcessBuilder
              unit unit unit unit 2%positive world world_reachable Hl eq_refl)
    as (out & w' & _ & Hdel & Hpeek & Hhooks).
  destruct (Hhooks _ 0 1000 tt tt None None next [])
    as (_ & _ & (res & d' & Hhook)).
  exists res, w', d'. split; [exact Hhook|]. split; [exact Hdel | exact Hpeek].
Defined.

(** Arguments that [Validate] rejects. *)
Definition args0 : Arguments Rule string :=
  mkArguments Rule string ["remote_write"] [] 0.

Lemma unvalidated_update_panics_witness :
  CacheSize _ _ args0 <= 0 /\
  exists c',
    Update Rule Rule (fun x => x) string args0 component = Some (None, c') /\
    relabel 0 2%positive (mkWorld Rule Rule string c' memory) = None.
Proof.
  assert (Hsz : CacheSize _ _ args0 <= 0) by (simpl; lia).
  split; [exact Hsz|].
  destruct (unvalidated_update_panics Rule Rule (fun x => x) string
              ProcessBuilder unit unit unit unit args0 component Hsz)
    as (c' & HU & _ & _ & Hpanic).
  exists c'. split; [exact HU|]. exact (proj1 (Hpanic memory 0 2%positive)).
Defined.

(** The world after the two series were relabelled once each, and the
    cache in use there: their two entries at capacity 100. *)
Definition warmed : World Rule Rule string :=
  default world warm.

Definition warmCache : lru.Cache (option labelAndID) :=
  lru.mkCache 100 [(2, Some (mklabelAndID kept 2)); (1, None)].

Lemma warm_cache :
  warm = Some warmed /\ cache _ _ _ (comp _ _ _ warmed) = Some warmCache.
Proof. split; vm_compute; reflexivity. Qed.

(** An [Update] with validated arguments on the cache in use: the two
    entries at capacity 100 give way to an empty cache of capacity 10. *)
Lemma cache_capacity_witness :
  exists c',
    warm = Some warmed /\
    cache _ _ _ (comp _ _ _ warmed) = Some warmCache /\
    lru.size warmCache = 100 /\ lru.Len warmCache = 2 /\
    Validate Rule string args2 = None /\
    Update Rule Rule (fun x => x) string args2 (comp _ _ _ warmed)
      = Some (None, c') /\
    cache _ _ _ c' = Some (lru.mkCache 10 []) /\
    cachePeek _ _ _ 1 (mkWorld Rule Rule string c' (mem _ _ _ warmed)) = None /\
    cachePeek _ _ _ 2 (mkWorld Rule Rule string c' (mem _ _ _ warmed)) = None.
Proof.
  destruct warm_cache as (Hw & Hc).
  destruct (cache_capacity Rule Rule (fun x => x) string)
    as (_ & _ & _ & HU).
  destruct (HU args2 (comp _ _ _ warmed))
    as (c' & HUp & _ & Hpeek & _ & Hvalid).
  exists c'. split; [exact Hw|]. split; [exact Hc|].
  split; [reflexivity|]. split; [reflexivity|]. split; [reflexivity|].
  split; [exact HUp|]. split; [exact (Hvalid eq_refl)|].
  split; apply Hpeek.
Defined.

(** An [Update] with the capacity 0 on the same cache returns a nil error
    as well, but no cache of capacity 0 is built: the cache it stores has
    no list, and the next call of [relabel] panics. *)
Lemma cache_capacity_counterexample :
  exists c',
    cache _ _ _ (comp _ _ _ warmed) = Some warmCache /\
    Update Rule Rule (fun x => x) string args0 (comp _ _ _ warmed)
      = Some (None, c') /\
    cache _ _ _ c' <> Some (lru.mkCache (CacheSize _ _ args0) []) /\
    cache _ _ _ c' = None /\
    relabel 0 2%positive (mkWorld Rule Rule string c' (mem _ _ _ warmed))
      = None.
Proof.
  destruct warm_cache as (_ & Hc).
  destruct (Update_spec Rule Rule (fun x => x) string
              args0 (comp _ _ _ warmed)) as (c' & HU & Hnew & _).
  assert (Hn : cache _ _ _ c' = None) by (rewrite Hnew; reflexivity).
  exists c'. split; [exact Hc|]. split; [exact HU|].
  split; [rewrite Hn; discriminate|]. split; [exact Hn|].
  apply relabel_cache_without_list. exact Hn.
Qed.

Lemma recent_entry_survives_witness :
  Reachable world /\
  exists out1 w1 out2 w2 w3,
    relabel 0 1%positive world = Some (out1, w1) /\
    relabel 0 2%positive w1 = Some (out2, w2) /\
    relabel 0 1%positive w2 = Some (out1, w3) /\
    cacheHits _ _ _ (comp _ _ _ w3) = cacheHits _ _ _ (comp _ _ _ w2) + 1.
Proof.
  split; [exact world_reachable|].
  assert (Hl1 : is_Some (memory !! 1%positive)) by (exists ignored; reflexivity).
  assert (Hl2 : is_Some (memory !! 2%positive)) by (exists kept; reflexivity).
  assert (Hsz : 2 <= lru.size (lru.mkCache (V := option labelAndID) 100 []))
    by (simpl; lia).
  destruct (recent_entry_survives Rule Rule (fun x => x) string ProcessBuilder
              0 0 1%positive 2%positive world _
              world_reachable eq_refl Hsz Hl1 Hl2)
    as (out1 & w1 & out2 & w2 & Hrun1 & Hrun2 & Hnext);
    [discriminate | reflexivity |].
  destruct (Hnext 0) as (w3 & Hrun3 & Hh & _).
  exists out1, w1, out2, w2, w3. repeat (split; [assumption|]). exact Hh.
Defined.

End RelabelDemo.

(** ** The runtime: component introspection

    [GetComponent], [ListComponents] and [getComponentDetail] of the
    runtime controller. *)

Module Runtime.

Section Introspection.

(** What a component node carries is opaque here: its health, its
    arguments and exports, the running component and its debug info. *)
Variables Health Arguments Exports DebugInfo Comp DataFlowEdge : Type.

(** The zero [component.Health]. *)
Variable noHealth : Health.

(** Whether a component implements [component.LiveDebugging]. *)
Variable implementsLiveDebugging : Comp -> bool.

(** The methods of the [controller.ComponentNode] interface that the
    introspection calls. *)
Record ComponentData : Type := mkComponentData {
  cn_NodeID : string;
  cn_Label : string;
  cn_ComponentName : string;
  cn_CurrentHealth : Health;
  cn_Arguments : Arguments;
  cn_Exports : Exports;
  cn_DataFlowEdgesTo : list DataFlowEdge;
  cn_ModuleIDs : list string
}.

(** The two implementations of [controller.ComponentNode]. *)
Inductive ComponentNode : Type :=
  | BuiltinComponentNode (d : ComponentData) (c : Comp) (dbg : DebugInfo)
  | CustomComponentNode (d : ComponentData).

Definition data (cn : ComponentNode) : ComponentData :=
  match cn with
  | BuiltinComponentNode d _ _ => d
  | CustomComponentNode d => d
  end.

(** A [dag.Node]: a component node, or a node of another kind
    (configuration block, import, declare), which only has an id. *)
Inductive Node : Type :=
  | NComponent (cn : ComponentNode)
  | NConfigBlock (nodeID : string)
  | NImport (nodeID : string)
  | NDeclare (nodeID : string).

Definition NodeID (n : Node) : string :=
  match n with
  | NComponent cn => cn_NodeID (data cn)
  | NConfigBlock i | NImport i | NDeclare i => i
  end.

(** The type assertion [dep.(controller.ComponentNode)]. *)
Definition asComponentNode (n : Node) : option ComponentNode :=
  match n with
  | NComponent cn => Some cn
  | _ => None
  end.

(** Modelled from the spec: the graph [dag.Graph] (internal/dag), of
    which the introspection uses [GetByID], [Dependencies] (the nodes at
    the end of the out-edges of a node) and [Dependants] (the nodes at
    the start of its in-edges).  Edges name their ends by node id. *)
Record Graph : Type := mkGraph {
  nodes : list Node;
  edges : list (string * string)          (* from, to *)
}.

Definition GetByID (g : Graph) (i : string) : option Node :=
  List.find (fun n => String.eqb (NodeID n) i) (nodes g).

Definition Dependencies (g : Graph) (n : Node) : list Node :=
  omap (fun e => if String.eqb e.1 (NodeID n) then GetByID g e.2 else None)
    (edges g).

Definition Dependants (g : Graph) (n : Node) : list Node :=
  omap (fun e => if String.eqb e.2 (NodeID n) then GetByID g e.1 else None)
    (edges g).

Record InfoOptions : Type := mkInfoOptions {
  GetHealth : bool;
  GetArguments : bool;
  GetExports : bool;
  GetDebugInfo : bool
}.

Inductive ComponentType : Type := TypeBuiltin | TypeCustom.

Record ID : Type := mkID {
  ModuleID : string;
  LocalID : string
}.

Record Info : Type := mkInfo {
  Component : option Comp;
  ModuleIDs : list string;
  info_ID : ID;
  Label : string;
  Type_ : ComponentType;
  References : list string;
  ReferencedBy : list string;
  DataFlowEdgesTo : list DataFlowEdge;
  ComponentName : string;
  info_Health : Health;
  info_Arguments : option Arguments;
  info_Exports : option Exports;
  info_DebugInfo : option DebugInfo;
  LiveDebuggingEnabled : bool
}.

Definition componentType (cn : ComponentNode) : ComponentType :=
  match cn with
  | BuiltinComponentNode _ _ _ => TypeBuiltin
  | CustomComponentNode _ => TypeCustom
  end.

(** The two loops of [getComponentDetail]: append the id of every
    neighbour that is a component node. *)
Fixpoint componentIDs (deps : list Node) (acc : list string) : list string :=
  match deps with
  | [] => acc
  | dep :: deps' =>
      match asComponentNode dep with
      | Some _ => componentIDs deps' (acc ++ [NodeID dep])
      | None => componentIDs deps' acc
      end
  end.

Definition getComponentDetail (controllerID : string) (cn : ComponentNode)
    (graph : Graph) (opts : InfoOptions) : Info :=
  let references := componentIDs (Dependencies graph (NComponent cn)) [] in
  let referencedBy := componentIDs (Dependants graph (NComponent cn)) [] in
  let health := if GetHealth opts then cn_CurrentHealth (data cn) else noHealth in
  let arguments := if GetArguments opts then Some (cn_Arguments (data cn)) else None in
  let exports := if GetExports opts then Some (cn_Exports (data cn)) else None in
  let component :=
    match cn with
    | BuiltinComponentNode _ c _ => Some c
    | CustomComponentNode _ => None
    end in
  let debugInfo :=
    match cn with
    | BuiltinComponentNode _ _ dbg => if GetDebugInfo opts then Some dbg else None
    | CustomComponentNode _ => None
    end in
  mkInfo component (cn_ModuleIDs (data cn))
    (mkID controllerID (cn_NodeID (data cn)))
    (cn_Label (data cn)) (componentType cn)
    references referencedBy
    (cn_DataFlowEdgesTo (data cn)) (cn_ComponentName (data cn))
    health arguments exports debugInfo
    (match component with
     | Some c => implementsLiveDebugging c
     | None => false
     end).

(** A runtime: its controller id, what its loader holds, and the
    runtimes of its modules. *)
Inductive Runtime : Type :=
  mkRuntime (opts_ControllerID : string)
            (loader_Graph : Graph)
            (loader_Components : list ComponentNode)
            (modules : list (string * Runtime)).

Definition opts_ControllerID (f : Runtime) : string :=
  let '(mkRuntime i _ _ _) := f in i.
Definition loader_Graph (f : Runtime) : Graph :=
  let '(mkRuntime _ g _ _) := f in g.
Definition loader_Components (f : Runtime) : list ComponentNode :=
  let '(mkRuntime _ _ c _) := f in c.
Definition modules (f : Runtime) : list (string * Runtime) :=
  let '(mkRuntime _ _ _ m) := f in m.

Definition modules_Get (f : Runtime) (moduleID : string) : option Runtime :=
  snd <$> List.find (fun p => String.eqb p.1 moduleID) (modules f).

Inductive error : Type :=
  | ErrComponentNotFound
  | ErrModuleNotFound
  | ErrNotAComponent (i : ID).            (* "<id>" is not a component *)

(** [GetComponent] for an id with an empty module id. *)
Definition getLocalComponent (f : Runtime) (i : ID) (opts : InfoOptions)
  : Info + error :=
  let graph := loader_Graph f in
  match GetByID graph (LocalID i) with
  | None => inr ErrComponentNotFound
  | Some node =>
      match asComponentNode node with
      | None => inr (ErrNotAComponent i)
      | Some cn => inl (getComponentDetail (opts_ControllerID f) cn graph opts)
      end
  end.

(** [GetComponent]: the call on the module's runtime is made with an
    empty module id, so it is a call of [getLocalComponent]. *)
Definition GetComponent (f : Runtime) (i : ID) (opts : InfoOptions)
  : Info + error :=
  if negb (String.eqb (ModuleID i) "") then
    match modules_Get f (ModuleID i) with
    | None => inr ErrComponentNotFound
    | Some mod_f => getLocalComponent mod_f (mkID "" (LocalID i)) opts
    end
  else getLocalComponent f i opts.

Definition listLocalComponents (f : Runtime) (opts : InfoOptions) : list Info :=
  let graph := loader_Graph f in
  List.map (fun component =>
              getComponentDetail (opts_ControllerID f) component graph opts)
    (loader_Components f).

(** [ListComponents]: likewise, the call on the module's runtime has an
    empty module id. *)
Definition ListComponents (f : Runtime) (moduleID : string) (opts : InfoOptions)
  : list Info + error :=
  if negb (String.eqb moduleID "") then
    match modules_Get f moduleID with
    | None => inr ErrModuleNotFound
    | Some mod_f => inl (listLocalComponents mod_f opts)
    end
  else inl (listLocalComponents f opts).

Definition isComponentNode (n : Node) : bool :=
  match asComponentNode n with
  | Some _ => true
  | None => false
  end.

(** The references of [info] are the ids of the component nodes among
    the neighbours of [cn] in [g], in their order, and nothing else. *)
Definition onlyComponents (g : Graph) (cn : ComponentNode) (info : Info) : Prop :=
  References info
  = List.map NodeID (List.filter isComponentNode (Dependencies g (NComponent cn))) /\
  ReferencedBy info
  = List.map NodeID (List.filter isComponentNode (Dependants g (NComponent cn))) /\
  (forall x, In x (References info) <->
     exists cn', In (NComponent cn') (Dependencies g (NComponent cn)) /\
                 cn_NodeID (data cn') = x) /\
  (forall x, In x (ReferencedBy info) <->
     exists cn', In (NComponent cn') (Dependants g (NComponent cn)) /\
                 cn_NodeID (data cn') = x).

Lemma componentIDs_filter deps acc :
  componentIDs deps acc
  = (acc ++ List.map NodeID (List.filter isComponentNode deps))%list.
Proof.
  revert acc. induction deps as [|dep deps IH]; intros acc; simpl.
  - by rewrite app_nil_r.
  - unfold isComponentNode. destruct (asComponentNode dep); simpl.
    + by rewrite IH, <- app_assoc.
    + apply IH.
Qed.

Lemma In_component_ids deps x :
  In x (List.map NodeID (List.filter isComponentNode deps)) <->
  exists cn', In (NComponent cn') deps /\ cn_NodeID (data cn') = x.
Proof.
  rewrite in_map_iff. split.
  - intros (dep & Hid & Hin). apply filter_In in Hin as [Hin Hc].
    destruct dep as [cn'| | |]; try discriminate. by exists cn'.
  - intros (cn' & Hin & Hid). exists (NComponent cn'). split; [done|].
    apply filter_In. by split.
Qed.

Lemma getComponentDetail_onlyComponents controllerID cn g opts :
  onlyComponents g cn (getComponentDetail controllerID cn g opts).
Proof.
  unfold onlyComponents, getComponentDetail. simpl.
  rewrite !componentIDs_filter. simpl.
  repeat split; try apply In_component_ids; apply In_component_ids.
Qed.

(** C9. Only component nodes are referenced.  The [References] and
    [ReferencedBy] lists that [getComponentDetail] builds are the ids of
    the component nodes among the dependencies and the dependants of the
    node: a neighbour that is not a component node adds nothing.  Every
    [Info] that [GetComponent] returns, and every one in the list that
    [ListComponents] returns, is built this way from the graph of the
    runtime asked, or of its module. *)
Theorem references_are_components :
  (forall controllerID cn g opts,
     onlyComponents g cn (getComponentDetail controllerID cn g opts)) /\
  (forall f i opts info,
     GetComponent f i opts = inl info ->
     exists rt cn,
       (if String.eqb (ModuleID i) "" then rt = f
        else modules_Get f (ModuleID i) = Some rt) /\
       GetByID (loader_Graph rt) (LocalID i) = Some (NComponent cn) /\
       onlyComponents (loader_Graph rt) cn info) /\
  (forall f moduleID opts infos,
     ListComponents f moduleID opts = inl infos ->
     exists rt,
       (if String.eqb moduleID "" then rt = f
        else modules_Get f moduleID = Some rt) /\
       length infos = length (loader_Components rt) /\
       forall n info, nth_error infos n = Some info ->
         exists cn, nth_error (loader_Components rt) n = Some cn /\
                    onlyComponents (loader_Graph rt) cn info).
Proof.
  assert (Hlocal : forall rt i opts info,
            getLocalComponent rt i opts = inl info ->
            exists cn, GetByID (loader_Graph rt) (LocalID i) = Some (NComponent cn) /\
                       onlyComponents (loader_Graph rt) cn info).
  { intros rt i opts info. unfold getLocalComponent.
    destruct (GetByID _ _) as [node|]; [|done].
    destruct node as [cn| | |]; simpl; try done.
    intros [= <-]. exists cn. split; [done|].
    apply getComponentDetail_onlyComponents. }
  assert (Hlist : forall rt opts n info,
            nth_error (listLocalComponents rt opts) n = Some info ->
            exists cn, nth_error (loader_Components rt) n = Some cn /\
                       onlyComponents (loader_Graph rt) cn info).
  { intros rt opts n info. unfold listLocalComponents.
    rewrite nth_error_map.
    destruct (nth_error (loader_Components rt) n) as [cn|]; simpl; [|done].
    intros [= <-]. exists cn. split; [done|].
    apply getComponentDetail_onlyComponents. }
  split; [apply getComponentDetail_onlyComponents|]. split.
  - intros f i opts info. unfold GetComponent.
    destruct (String.eqb (ModuleID i) ""); simpl.
    + intros H. destruct (Hlocal f i opts info H) as (cn & ? & ?).
      by exists f, cn.
    + destruct (modules_Get f (ModuleID i)) as [rt|]; [|done].
      intros H. destruct (Hlocal rt _ opts info H) as (cn & ? & ?).
      by exists rt, cn.
  - intros f moduleID opts infos. unfold ListComponents.
    destruct (String.eqb moduleID ""); simpl.
    + intros [= <-]. exists f. split; [done|].
      split; [unfold listLocalComponents; apply length_map|]. apply Hlist.
    + destruct (modules_Get f moduleID) as [rt|]; [|done].
      intros [= <-]. exists rt. split; [done|].
      split; [unfold listLocalComponents; apply length_map|]. apply Hlist.
Qed.

(** *** More on the introspection: errors, listing, options *)

(** The runtime a module id stands for: the runtime asked when the id is
    empty, and else its module of that id. *)
Definition resolve (f : Runtime) (moduleID : string) : option Runtime :=
  if String.eqb moduleID "" then Some f else modules_Get f moduleID.

Lemma GetComponent_eq f i opts :
  GetComponent f i opts
  = match resolve f (ModuleID i) with
    | None => inr ErrComponentNotFound
    | Some rt =>
        match GetByID (loader_Graph rt) (LocalID i) with
        | None => inr ErrComponentNotFound
        | Some node =>
            match asComponentNode node with
            | None => inr (ErrNotAComponent (mkID "" (LocalID i)))
            | Some cn =>
                inl (getComponentDetail (opts_ControllerID rt) cn
                       (loader_Graph rt) opts)
            end
        end
    end.
Proof.
  unfold GetComponent, resolve, getLocalComponent.
  destruct (String.eqb (ModuleID i) "") eqn:E; simpl; [|done].
  apply String.eqb_eq in E. destruct i as [m l]. simpl in *. by subst m.
Qed.

(** X12. [GetComponent] succeeds exactly when the runtime the module id stands
    for has a component node under the local id, whatever the options.
    An unknown module and an unknown node both give
    [ErrComponentNotFound], never [ErrModuleNotFound]; a node of another
    kind gives the not-a-component error, which names the local id
    without the module id. *)
Theorem GetComponent_outcome f i opts :
  ((exists info, GetComponent f i opts = inl info) <->
   exists rt cn, resolve f (ModuleID i) = Some rt /\
     GetByID (loader_Graph rt) (LocalID i) = Some (NComponent cn)) /\
  (GetComponent f i opts = inr ErrComponentNotFound <->
   resolve f (ModuleID i) = None \/
   exists rt, resolve f (ModuleID i) = Some rt /\
     GetByID (loader_Graph rt) (LocalID i) = None) /\
  (forall j, GetComponent f i opts = inr (ErrNotAComponent j) <->
   j = mkID "" (LocalID i) /\
   exists rt node, resolve f (ModuleID i) = Some rt /\
     GetByID (loader_Graph rt) (LocalID i) = Some node /\
     asComponentNode node = None) /\
  GetComponent f i opts <> inr ErrModuleNotFound.
Proof.
  rewrite GetComponent_eq.
  destruct (resolve f (ModuleID i)) as [rt|] eqn:ER;
    [destruct (GetByID (loader_Graph rt) (LocalID i)) as [node|] eqn:EG;
      [destruct (asComponentNode node) as [cn|] eqn:EA;
        [destruct node; simplify_eq/=|]|]|];
    repeat first
      [ progress intros
      | match goal with
        | |- _ /\ _ => split
        | |- _ <-> _ => split
        | H : exists _, _ |- _ => destruct H
        | H : _ /\ _ |- _ => destruct H
        | H : _ \/ _ |- _ => destruct H
        end ];
    simplify_eq; eauto 10.
Qed.

Lemma ListComponents_eq f moduleID opts :
  ListComponents f moduleID opts
  = match resolve f moduleID with
    | None => inr ErrModuleNotFound
    | Some rt => inl (listLocalComponents rt opts)
    end.
Proof.
  unfold ListComponents, resolve. by destruct (String.eqb moduleID "").
Qed.

(** X13. [ListComponents] fails only for a module id that is not empty and
    names no module, with [ErrModuleNotFound]; otherwise it returns one
    [Info] per component of the loader, in the loader's order, each under
    the controller id of the runtime listed and the node id of its
    component. *)
Theorem ListComponents_outcome f moduleID opts :
  (forall err, ListComponents f moduleID opts = inr err ->
     err = ErrModuleNotFound /\ moduleID <> "" /\
     modules_Get f moduleID = None) /\
  (forall rt, resolve f moduleID = Some rt ->
     exists infos,
       ListComponents f moduleID opts = inl infos /\
       List.map info_ID infos
       = List.map (fun cn => mkID (opts_ControllerID rt) (cn_NodeID (data cn)))
           (loader_Components rt) /\
       List.map Type_ infos = List.map componentType (loader_Components rt)).
Proof.
  rewrite ListComponents_eq. split.
  - intros err. unfold resolve.
    destruct (String.eqb moduleID "") eqn:E; [done|].
    apply String.eqb_neq in E.
    destruct (modules_Get f moduleID); [done|]. by intros [= <-].
  - intros rt ->. eexists. split; [done|].
    unfold listLocalComponents. rewrite !List.map_map. done.
Qed.

(** X14. Listing and getting agree.  When the graph of the runtime listed
    holds the n-th component of its loader under the node id of that
    component, the n-th [Info] of [ListComponents] is the [Info] that
    [GetComponent] returns for that id in the same module. *)
Theorem list_agrees_with_get f moduleID opts rt n cn :
  resolve f moduleID = Some rt ->
  nth_error (loader_Components rt) n = Some cn ->
  GetByID (loader_Graph rt) (cn_NodeID (data cn)) = Some (NComponent cn) ->
  exists infos info,
    ListComponents f moduleID opts = inl infos /\
    nth_error infos n = Some info /\
    GetComponent f (mkID moduleID (cn_NodeID (data cn))) opts = inl info.
Proof.
  intros Hres Hn Hg. rewrite ListComponents_eq, GetComponent_eq. simpl.
  rewrite Hres, Hg. simpl. eexists _, _. split; [done|]. split; [|done].
  unfold listLocalComponents. rewrite nth_error_map, Hn. done.
Qed.

(** X15. What the options never change.  Whether [GetComponent] succeeds does
    not depend on the options, and two calls that differ in their options
    only return the same id, label, type, references, data-flow edges,
    component name, module ids, component and live-debugging flag; an
    option that is off leaves its field empty. *)
Theorem options_select_fields f i opts1 opts2 info1 :
  GetComponent f i opts1 = inl info1 ->
  exists info2,
    GetComponent f i opts2 = inl info2 /\
    info_ID info2 = info_ID info1 /\
    Label info2 = Label info1 /\
    Type_ info2 = Type_ info1 /\
    References info2 = References info1 /\
    ReferencedBy info2 = ReferencedBy info1 /\
    DataFlowEdgesTo info2 = DataFlowEdgesTo info1 /\
    ComponentName info2 = ComponentName info1 /\
    ModuleIDs info2 = ModuleIDs info1 /\
    Component info2 = Component info1 /\
    LiveDebuggingEnabled info2 = LiveDebuggingEnabled info1 /\
    (GetHealth opts2 = false -> info_Health info2 = noHealth) /\
    (GetArguments opts2 = false -> info_Arguments info2 = None) /\
    (GetExports opts2 = false -> info_Exports info2 = None) /\
    (GetDebugInfo opts2 = false -> info_DebugInfo info2 = None).
Proof.
  rewrite !GetComponent_eq.
  destruct (resolve f (ModuleID i)) as [rt|]; [|done].
  destruct (GetByID (loader_Graph rt) (LocalID i)) as [node|]; [|done].
  destruct (asComponentNode node) as [cn|]; [|done].
  intros [= <-]. eexists. split; [done|]. simpl.
  repeat (split; [done|]).
  repeat split; intros ->; [done..|]. by destruct cn.
Qed.

End Introspection.

End Runtime.

(** ** A small runtime

    Two components and the logging block: [a] refers to [b] and to the
    logging block, and the logging block refers to [b]. *)

Module RuntimeDemo.
Import Runtime.

Definition a : ComponentNode unit unit unit unit unit unit :=
  BuiltinComponentNode _ _ _ _ _ _
    (mkComponentData _ _ _ _ "prometheus.relabel.a" "a" "prometheus.relabel"
       tt tt tt [] []) tt tt.

Definition b : ComponentNode unit unit unit unit unit unit :=
  CustomComponentNode _ _ _ _ _ _
    (mkComponentData _ _ _ _ "mycomponent.b" "b" "mycomponent" tt tt tt [] []).

Definition graph : Graph unit unit unit unit unit unit :=
  mkGraph _ _ _ _ _ _
    [NComponent _ _ _ _ _ _ a; NComponent _ _ _ _ _ _ b;
     NConfigBlock _ _ _ _ _ _ "logging"]
    [("prometheus.relabel.a", "mycomponent.b");
     ("prometheus.relabel.a", "logging");
     ("logging", "mycomponent.b")].

Definition runtime : Runtime unit unit unit unit unit unit :=
  mkRuntime _ _ _ _ _ _ "" graph [a; b] [].

Definition all : InfoOptions := mkInfoOptions true true true true.

Definition GetComponent :=
  Runtime.GetComponent unit unit unit unit unit unit tt (fun _ => true).
Definition ListComponents :=
  Runtime.ListComponents unit unit unit unit unit unit tt (fun _ => true).

Example references_of_a :
  match GetComponent runtime (mkID "" "prometheus.relabel.a") all with
  | inl info => References _ _ _ _ _ _ info = ["mycomponent.b"] /\
                ReferencedBy _ _ _ _ _ _ info = []
  | inr _ => False
  end.
Proof. vm_compute. done. Qed.

Example referenced_by_of_b :
  match GetComponent runtime (mkID "" "mycomponent.b") all with
  | inl info => References _ _ _ _ _ _ info = [] /\
                ReferencedBy _ _ _ _ _ _ info = ["prometheus.relabel.a"]
  | inr _ => False
  end.
Proof. vm_compute. done. Qed.

Example logging_is_not_a_component :
  GetComponent runtime (mkID "" "logging") all
  = inr (ErrNotAComponent (mkID "" "logging")).
Proof. reflexivity. Qed.

Lemma references_are_components_witness :
  exists info,
    GetComponent runtime (mkID "" "prometheus.relabel.a") all = inl info /\
    exists cn, onlyComponents _ _ _ _ _ _ graph cn info.
Proof.
  eexists. split; [reflexivity|].
  destruct (references_are_components unit unit unit unit unit unit tt
              (fun _ => true)) as (_ & HG & _).
  destruct (HG runtime (mkID "" "prometheus.relabel.a") all _ eq_refl)
    as (rt & cn & Hrt & _ & Hok).
  simpl in Hrt. subst rt. by exists cn.
Defined.

Lemma list_agrees_with_get_witness :
  exists infos info,
    ListComponents runtime "" all = inl infos /\
    nth_error infos 1 = Some info /\
    GetComponent runtime (mkID "" "mycomponent.b") all = inl info.
Proof.
  exact (list_agrees_with_get unit unit unit unit unit unit tt (fun _ => true)
           runtime "" all runtime 1 b eq_refl eq_refl eq_refl).
Defined.

Lemma options_select_fields_witness :
  exists info1 info2,
    GetComponent runtime (mkID "" "prometheus.relabel.a") all = inl info1 /\
    GetComponent runtime (mkID "" "prometheus.relabel.a")
      (mkInfoOptions false false false false) = inl info2 /\
    References _ _ _ _ _ _ info2 = References _ _ _ _ _ _ info1 /\
    info_DebugInfo _ _ _ _ _ _ info2 = None.
Proof.
  eexists. 
  destruct (options_select_fields unit unit unit unit unit unit tt
              (fun _ => true) runtime (mkID "" "prometheus.relabel.a") all
              (mkInfoOptions false false false false) _ eq_refl)
    as (info2 & H2 & _ & _ & _ & Href & _ & _ & _ & _ & _ & _ & _ & _ & _ & Hdbg).
  exists info2. split; [reflexivity|]. split; [exact H2|].
  split; [exact Href | exact (Hdbg eq_refl)].
Defined.

End RuntimeDemo.

(** ** The regex stage of the log pipeline

    The stage itself (regex.go of internal/component/loki/process/stages)
    is modelled from the specification; its tests are regex_test.go. *)

Module Stages.

(** A value of the extracted map, a Go [interface{}]. *)
Inductive Value : Type :=
  | VNil
  | VBool (b : bool)
  | VNumber (n : Z)
  | VString (s : string).

(** The errors of the regex stage at pipeline build time. *)
Inductive error : Type :=
  | ErrExpressionRequired
  | ErrCouldNotCompileRegex (diagnostic : string)
  | ErrEmptyRegexStageSource.

Record RegexConfig : Type := mkRegexConfig {
  Expression : string;
  Source : option string;                 (* nil: work on the line *)
  LabelsFromGroups : bool
}.

(** An entry in flight through the stages. *)
Record Entry : Type := mkEntry {
  Timestamp : Z;
  Line : string;
  Labels : gmap string string;
  Extracted : gmap string Value
}.

(** The debug messages of the stage. *)
Inductive DebugMsg : Type :=
  | SourceMissing (source : string)
  | ConvertFailed (source : string) (err : string).
      (* failed to convert source value to string *)

Section Regex.

(** The regular expression engine and the coercion of a value to a
    string are parameters.  [SubexpNames] lists the names of the groups,
    group 0 (the whole match) and unnamed groups having the empty name;
    [FindStringSubmatch] gives the text of each group, empty for a group
    that took no part in the match. *)
Variable Regexp : Type.
Variable Compile : string -> Regexp + string.
Variable SubexpNames : Regexp -> list string.
Variable FindStringSubmatch : Regexp -> string -> option (list string).
Variable getString : Value -> string + string.

(** Modelled from the spec: [validateRegexConfig], the validation of a
    regex stage at pipeline build time (regex.go is not at hand).  The
    expression is required, an empty source is rejected, and the
    expression is compiled, a failure wrapping the diagnostic of the
    engine; the checks are made in this order. *)
Definition validateRegexConfig (c : RegexConfig) : Regexp + error :=
  if String.eqb (Expression c) "" then inr ErrExpressionRequired
  else
    match Source c with
    | Some "" => inr ErrEmptyRegexStageSource
    | _ =>
        match Compile (Expression c) with
        | inl expr => inl expr
        | inr diagnostic => inr (ErrCouldNotCompileRegex diagnostic)
        end
    end.

Record regexStage : Type := mkRegexStage {
  config : RegexConfig;
  expression : Regexp
}.

(** Modelled from the spec: the constructor of the stage, which
    validates the configuration and keeps the compiled expression. *)
Definition New (c : RegexConfig) : regexStage + error :=
  match validateRegexConfig c with
  | inl expr => inl (mkRegexStage c expr)
  | inr err => inr err
  end.

(** The text of group [i] of a match. *)
Definition submatch (m : list string) (i : nat) : string :=
  default "" (m !! i).

(** The loop over the groups, from index [i] on: every named group other
    than group 0 is written to the map. *)
Fixpoint assign {V} (f : string -> V) (names : list string) (m : list string)
    (i : nat) (acc : gmap string V) : gmap string V :=
  match names with
  | [] => acc
  | name :: names' =>
      assign f names' m (S i)
        (if negb (Nat.eqb i 0) && negb (String.eqb name "")
         then <[name := f (submatch m i)]> acc
         else acc)
  end.

(** Modelled from the spec: the string a stage works on, the line when
    no source is set and else the extracted value of the source, which
    must be there and must convert to a string. *)
Definition stageInput (st : regexStage) (e : Entry) : string + DebugMsg :=
  match Source (config st) with
  | None => inl (Line e)
  | Some k =>
      match Extracted e !! k with
      | None => inr (SourceMissing k)
      | Some v =>
          match getString v with
          | inl s => inl s
          | inr err => inr (ConvertFailed k err)
          end
      end
  end.

(** Modelled from the spec: [Process] of the regex stage (regex.go is
    not at hand).  Without an input the entry passes with a debug
    message; without a match it passes; on a match every named group is
    written to the extracted map and, when [labels_from_groups] is set,
    to the labels. *)
Definition Process (st : regexStage) (e : Entry) : Entry * list DebugMsg :=
  match stageInput st e with
  | inr msg => (e, [msg])
  | inl input =>
      match FindStringSubmatch (expression st) input with
      | None => (e, [])
      | Some m =>
          let names := SubexpNames (expression st) in
          (mkEntry (Timestamp e) (Line e)
             (if LabelsFromGroups (config st)
              then assign (fun s => s) names m 0 (Labels e)
              else Labels e)
             (assign VString names m 0 (Extracted e)),
           [])
      end
  end.

(** *** The loop over the groups *)

Lemma assign_untouched {V} (f : string -> V) names m i acc k :
  (forall j n, names !! j = Some n -> (i + j)%nat <> 0%nat -> n <> "" -> n <> k) ->
  assign f names m i acc !! k = acc !! k.
Proof.
  revert i acc. induction names as [|name names IH]; intros i acc Hk; [done|].
  simpl. rewrite IH.
  - destruct (negb (i =? 0)%nat && negb (String.eqb name "")) eqn:E; [|done].
    apply andb_true_iff in E as [Ei En].
    apply negb_true_iff, Nat.eqb_neq in Ei.
    apply negb_true_iff, String.eqb_neq in En.
    rewrite lookup_insert_ne; [done|].
    apply (Hk 0%nat name); [done | lia | done].
  - intros j n Hj Hi Hn. apply (Hk (S j) n); [done | lia | done].
Qed.

Lemma assign_keeps {V} (f : string -> V) names m i acc k :
  is_Some (acc !! k) -> is_Some (assign f names m i acc !! k).
Proof.
  revert i acc. induction names as [|name names IH]; intros i acc Hk; [done|].
  simpl. apply IH.
  destruct (negb (i =? 0)%nat && negb (String.eqb name "")); [|done].
  rewrite lookup_insert. case_decide; [eauto | done].
Qed.

Lemma assign_present {V} (f : string -> V) names m i acc j name :
  names !! j = Some name -> (i + j)%nat <> 0%nat -> name <> "" ->
  is_Some (assign f names m i acc !! name).
Proof.
  revert i acc j. induction names as [|n names IH]; intros i acc j Hj Hi Hn;
    [done|].
  destruct j as [|j]; simpl in *.
  - injection Hj as ->. apply assign_keeps.
    assert ((i =? 0)%nat = false) as -> by (apply Nat.eqb_neq; lia).
    apply String.eqb_neq in Hn. rewrite Hn. simpl.
    rewrite lookup_insert_eq. eauto.
  - apply (IH (S i) _ j); [done | lia | done].
Qed.

Lemma assign_last {V} (f : string -> V) names m i acc j name :
  names !! j = Some name -> (i + j)%nat <> 0%nat -> name <> "" ->
  (forall j', (j < j')%nat -> names !! j' <> Some name) ->
  assign f names m i acc !! name = Some (f (submatch m (i + j))).
Proof.
  revert i acc j. induction names as [|n names IH]; intros i acc j Hj Hi Hn Hlast;
    [done|].
  destruct j as [|j]; simpl in *.
  - injection Hj as ->. rewrite assign_untouched.
    + assert ((i =? 0)%nat = false) as -> by (apply Nat.eqb_neq; lia).
      apply String.eqb_neq in Hn. rewrite Hn. simpl.
      rewrite lookup_insert_eq. by rewrite Nat.add_0_r.
    + intros j' n' Hj' _ _ ->. by apply (Hlast (S j')); [lia|].
  - rewrite (IH (S i) _ j); [|done|lia|done|].
    + by replace (S i + j)%nat with (i + S j)%nat by lia.
    + intros j' Hlt. apply (Hlast (S j')). lia.
Qed.

(** *** The claims on the regex stage *)

(** C6. Validation of a regex stage.  A configuration without an
    expression fails with [ErrExpressionRequired]; with an expression, a
    source set to the empty string fails with [ErrEmptyRegexStageSource];
    otherwise an expression that does not compile fails with
    [ErrCouldNotCompileRegex] around the diagnostic of the engine, and an
    expression that compiles, the source being unset or not empty,
    validates and gives the compiled expression.  Validation fails in no
    other way. *)
Theorem regex_config_validation c :
  (Expression c = "" -> validateRegexConfig c = inr ErrExpressionRequired) /\
  (Expression c <> "" -> Source c = Some "" ->
   validateRegexConfig c = inr ErrEmptyRegexStageSource) /\
  (forall diagnostic,
     Expression c <> "" -> Source c <> Some "" ->
     Compile (Expression c) = inr diagnostic ->
     validateRegexConfig c = inr (ErrCouldNotCompileRegex diagnostic)) /\
  (forall expr,
     Expression c <> "" -> Source c <> Some "" ->
     Compile (Expression c) = inl expr ->
     validateRegexConfig c = inl expr) /\
  (forall err,
     validateRegexConfig c = inr err ->
     (err = ErrExpressionRequired /\ Expression c = "") \/
     (err = ErrEmptyRegexStageSource /\ Source c = Some "") \/
     (exists diagnostic, err = ErrCouldNotCompileRegex diagnostic /\
                         Compile (Expression c) = inr diagnostic)).
Proof.
  unfold validateRegexConfig.
  destruct (String.eqb (Expression c) "") eqn:E.
  - apply String.eqb_eq in E. repeat split; try done.
    intros err [= <-]. by left.
  - apply String.eqb_neq in E.
    destruct (Source c) as [[|a k]|] eqn:ES.
    + repeat split; try done. intros err [= <-]. right. by left.
    + repeat split; try done.
      * by intros d _ _ ->.
      * by intros re _ _ ->.
      * intros err. destruct (Compile (Expression c)) as [re|d]; [done|].
        intros [= <-]. right. right. by exists d.
    + repeat split; try done.
      * by intros d _ _ ->.
      * by intros re _ _ ->.
      * intros err. destruct (Compile (Expression c)) as [re|d]; [done|].
        intros [= <-]. right. right. by exists d.
Qed.

(** C7. A miss passes the entry through.  When the expression does not
    match the input of the stage, the entry comes out as it went in, its
    extracted map and its labels included; when the source is missing
    from the extracted map, or its value does not convert to a string,
    the entry comes out as it went in and one debug message is logged. *)
Theorem regex_miss_passes_through st e :
  (forall input,
     stageInput st e = inl input ->
     FindStringSubmatch (expression st) input = None ->
     Process st e = (e, [])) /\
  (forall k,
     Source (config st) = Some k -> Extracted e !! k = None ->
     Process st e = (e, [SourceMissing k])) /\
  (forall k v err,
     Source (config st) = Some k -> Extracted e !! k = Some v ->
     getString v = inr err ->
     Process st e = (e, [ConvertFailed k err])).
Proof.
  unfold Process, stageInput. repeat split.
  - intros input. destruct (Source (config st)) as [k|].
    + destruct (Extracted e !! k) as [v|]; [|done].
      destruct (getString v); [|done]. by intros [= ->] ->.
    + by intros [= ->] ->.
  - by intros k -> ->.
  - by intros k v err -> -> ->.
Qed.

(** C8. Labels from groups.  When the expression matches the input of
    the stage, every named group other than group 0 has its name as a
    key of the extracted map afterwards, and of the labels when
    [labels_from_groups] is set, whatever the labels held before; the
    value under the name is the text of the group (of the last group of
    that name, should the expression use a name twice), the same in both
    maps; keys that name no group are left as they were. *)
Theorem labels_from_groups st e input m :
  stageInput st e = inl input ->
  FindStringSubmatch (expression st) input = Some m ->
  let names := SubexpNames (expression st) in
  let out := (Process st e).1 in
  (forall i name,
     names !! i = Some name -> i <> 0%nat -> name <> "" ->
     is_Some (Extracted out !! name) /\
     (LabelsFromGroups (config st) = true -> is_Some (Labels out !! name)) /\
     ((forall j, (i < j)%nat -> names !! j <> Some name) ->
      Extracted out !! name = Some (VString (submatch m i)) /\
      (LabelsFromGroups (config st) = true ->
       Labels out !! name = Some (submatch m i)))) /\
  (forall k,
     (forall i, i <> 0%nat -> k <> "" -> names !! i <> Some k) ->
     Extracted out !! k = Extracted e !! k /\ Labels out !! k = Labels e !! k) /\
  (LabelsFromGroups (config st) = false -> Labels out = Labels e).
Proof.
  intros Hin Hm names out. subst out. unfold Process. rewrite Hin, Hm.
  fold names. simpl. split; [|split].
  - intros i name Hi Hne Hname. split; [|split].
    + by apply (assign_present VString names m 0 _ i name).
    + intros ->. by apply (assign_present (fun s => s) names m 0 _ i name).
    + intros Hlast. split.
      * by rewrite (assign_last VString names m 0 _ i name).
      * intros ->. by rewrite (assign_last (fun s => s) names m 0 _ i name).
  - intros k Hk.
    assert (Hun : forall j n, names !! j = Some n -> (0 + j)%nat <> 0%nat ->
                    n <> "" -> n <> k).
    { intros j n Hj Hj0 Hn ->. by apply (Hk j). }
    split; [by apply assign_untouched|].
    destruct (LabelsFromGroups (config st)); [by apply assign_untouched | done].
  - by intros ->.
Qed.

End Regex.

End Stages.

(** ** A small regex engine for the stage

    The engine knows the anchored expressions made of a literal followed
    by one named group that takes any text: the input must start with
    the literal, and the group takes the rest. *)

Module StagesDemo.
Import Stages.

Record Regexp : Type := mkRegexp {
  literal : string;
  group : string
}.

Definition Compile (e : string) : Regexp + string :=
  match String.index 0 "(?P<" e with
  | None => inr "missing named capture"
  | Some i =>
      let rest := String.substring (i + 4) (String.length e - (i + 4)) e in
      match String.index 0 ">.*)$" rest with
      | Some j =>
          if Nat.eqb (j + 5) (String.length rest) && String.prefix "^" e
          then inl (mkRegexp (String.substring 1 (i - 1) e)
                      (String.substring 0 j rest))
          else inr "unsupported expression"
      | None => inr ("invalid named capture: " ++ e)%string
      end
  end.

Definition SubexpNames (re : Regexp) : list string := [""; group re].

Definition FindStringSubmatch (re : Regexp) (s : string) : option (list string) :=
  if String.prefix (literal re) s
  then Some [s; String.substring (String.length (literal re))
                  (String.length s - String.length (literal re)) s]
  else None.

Definition getString (v : Value) : string + string :=
  match v with
  | VNil => inr "can't convert <nil> to string"
  | VBool true => inl "true"
  | VBool false => inl "false"
  | VNumber n => inl (pretty n)
  | VString s => inl s
  end.

Definition validateRegexConfig := Stages.validateRegexConfig Regexp Compile.
Definition Process :=
  Stages.Process Regexp SubexpNames FindStringSubmatch getString.

Definition protocol : RegexConfig :=
  mkRegexConfig "^HTTP/(?P<protocol_version>.*)$" (Some "protocol") true.

Definition protocolStage : regexStage Regexp :=
  mkRegexStage Regexp protocol (mkRegexp "HTTP/" "protocol_version").

Example protocol_validates :
  Stages.New Regexp Compile protocol = inl protocolStage.
Proof. reflexivity. Qed.

(** The cases of the validation test. *)
Example validate_missing_expression :
  validateRegexConfig (mkRegexConfig "" None false) = inr ErrExpressionRequired.
Proof. reflexivity. Qed.

Example validate_invalid_expression :
  validateRegexConfig (mkRegexConfig "(?P<ts[0-9]+).*" None false)
  = inr (ErrCouldNotCompileRegex "invalid named capture: (?P<ts[0-9]+).*").
Proof. reflexivity. Qed.

Example validate_empty_source :
  validateRegexConfig (mkRegexConfig "^(?P<ts>.*)$" (Some "") false)
  = inr ErrEmptyRegexStageSource.
Proof. reflexivity. Qed.

Example validate_with_source :
  validateRegexConfig (mkRegexConfig "^(?P<ts>.*)$" (Some "log") false)
  = inl (mkRegexp "" "ts").
Proof. reflexivity. Qed.

Definition entry (labels : gmap string string) (extracted : gmap string Value)
  : Entry := mkEntry 0 "unknown/unknown" labels extracted.

(** A match on extracted[source], the labels taking the group. *)
Example process_protocol :
  Process protocolStage
    (entry {["protocol" := "HTTP/2"]} {["protocol" := VString "HTTP/1.1"]})
  = (entry (<["protocol_version" := "1.1"]> {["protocol" := "HTTP/2"]})
       (<["protocol_version" := VString "1.1"]>
          {["protocol" := VString "HTTP/1.1"]}), []).
Proof. reflexivity. Qed.

Lemma regex_config_validation_witness :
  validateRegexConfig (mkRegexConfig "" (Some "log") false)
    = inr ErrExpressionRequired /\
  validateRegexConfig (mkRegexConfig "^(?P<ts>.*)$" (Some "") false)
    = inr ErrEmptyRegexStageSource /\
  validateRegexConfig (mkRegexConfig "(?P<ts[0-9]+).*" None false)
    = inr (ErrCouldNotCompileRegex "invalid named capture: (?P<ts[0-9]+).*") /\
  validateRegexConfig protocol = inl (mkRegexp "HTTP/" "protocol_version").
Proof.
  split; [|split; [|split]].
  - exact (proj1 (regex_config_validation Regexp Compile
                    (mkRegexConfig "" (Some "log") false)) eq_refl).
  - refine (proj1 (proj2 (regex_config_validation Regexp Compile
                    (mkRegexConfig "^(?P<ts>.*)$" (Some "") false))) _ eq_refl).
    discriminate.
  - refine (proj1 (proj2 (proj2 (regex_config_validation Regexp Compile
                    (mkRegexConfig "(?P<ts[0-9]+).*" None false)))) _ _ _ eq_refl);
      discriminate.
  - refine (proj1 (proj2 (proj2 (proj2 (regex_config_validation Regexp Compile
                    protocol)))) _ _ _ eq_refl); discriminate.
Defined.

Lemma regex_miss_passes_through_witness :
  (let e := entry ∅ {["protocol" := VString "unknown"]} in
   Process protocolStage e = (e, [])) /\
  (let e := entry ∅ ∅ in
   Process protocolStage e = (e, [SourceMissing "protocol"])) /\
  (let e := entry ∅ {["protocol" := VNil]} in
   Process protocolStage e
   = (e, [ConvertFailed "protocol" "can't convert <nil> to string"])).
Proof.
  split; [|split]; intros e.
  - exact (proj1 (regex_miss_passes_through Regexp SubexpNames
                    FindStringSubmatch getString protocolStage e)
             "unknown" eq_refl eq_refl).
  - exact (proj1 (proj2 (regex_miss_passes_through Regexp SubexpNames
                    FindStringSubmatch getString protocolStage e))
             "protocol" eq_refl eq_refl).
  - exact (proj2 (proj2 (regex_miss_passes_through Regexp SubexpNames
                    FindStringSubmatch getString protocolStage e))
             "protocol" VNil _ eq_refl eq_refl eq_refl).
Defined.

Lemma labels_from_groups_witness :
  let e := entry {["protocol_version" := "old"]}
             {["protocol" := VString "HTTP/1.1"]} in
  let out := (Process protocolStage e).1 in
  Labels out !! "protocol_version" = Some "1.1" /\
  Extracted out !! "protocol_version" = Some (VString "1.1").
Proof.
  intros e out.
  destruct (labels_from_groups Regexp SubexpNames FindStringSubmatch getString
              protocolStage e "HTTP/1.1" ["HTTP/1.1"; "1.1"] eq_refl eq_refl)
    as (Hgroups & _).
  destruct (Hgroups 1%nat "protocol_version" eq_refl) as (_ & _ & Hlast);
    [discriminate | discriminate |].
  destruct Hlast as [Hext Hlbl].
  - intros j Hj. destruct j as [|[|j]]; [lia | lia | discriminate].
  - split; [exact (Hlbl eq_refl) | exact Hext].
Defined.

End StagesDemo.
